(** * svelte-simple-code-editor: edit history and key-command interpreter

    A shallow embedding of the script part of the editor component (the
    one with the [PAIRS] table and the [preClass] and [textAreaProps]
    props): the module-level helpers, [recordChange], [applyEdits],
    [undoEdit], [redoEdit], [updateInput], [handleKeyDown] and
    [handleChange]. The older copy [src/lib/Editor.svelte] shares all of
    them but [handleKeyDown], which is embedded in [EditorSvelte].

    Conventions of the embedding:
    - a JavaScript string is the list of its code units; the model keeps
      the code units below 256, so a code unit is an [ascii];
    - a JavaScript number that holds an index, a length or a clock reading
      is a [Z] ([history.offset] starts at [-1]);
    - [Date.now()] is an argument [now] of every function that reads it;
    - the component's mutable variables ([history], [capture], [value],
      the bound [textarea]) and the events it dispatches are the fields of
      one [Editor] record that every function takes and returns. *)

From Stdlib Require Import ZArith Ascii String Lia.
From stdpp Require Import base tactics option list.

Local Open Scope Z_scope.

(** ** JavaScript strings *)

Abbreviation jsstring := (list ascii).

Definition lit (s : string) : jsstring := list_ascii_of_string s.

Definition newline : ascii := "010"%char.

Definition tab : ascii := "009"%char.

Definition quote : ascii := "034"%char.

(** [a === b] on strings. *)
Fixpoint str_eqb (a b : jsstring) : bool :=
  match a, b with
  | [], [] => true
  | x :: a', y :: b' => Ascii.eqb x y && str_eqb a' b'
  | _, _ => false
  end.

(** [String.prototype.substring(start, end)]: both indices are clamped to
    [0 .. length] and swapped when [start > end]. *)
Definition clamp (len i : Z) : Z := Z.max 0 (Z.min i len).

Definition substring (s : jsstring) (a b : Z) : jsstring :=
  let len := Z.of_nat (length s) in
  let a' := clamp len a in
  let b' := clamp len b in
  let from := Z.min a' b' in
  let to := Z.max a' b' in
  take (Z.to_nat (to - from)) (drop (Z.to_nat from) s).

(** [substring(start)] with the end omitted. *)
Definition substring_from (s : jsstring) (a : Z) : jsstring :=
  substring s a (Z.of_nat (length s)).

(** [s.split('\n')]: never empty, the empty string gives one empty line. *)
Fixpoint split_lines (s : jsstring) : list jsstring :=
  match s with
  | [] => [[]]
  | c :: rest =>
      if Ascii.eqb c newline then [] :: split_lines rest
      else match split_lines rest with
           | line :: lines => (c :: line) :: lines
           | [] => [[c]]
           end
  end.

(** [lines.join('\n')]. *)
Fixpoint join_lines (lines : list jsstring) : jsstring :=
  match lines with
  | [] => []
  | [line] => line
  | line :: rest => line ++ newline :: join_lines rest
  end.

(** [array.map((line, i) => ...)]. *)
Fixpoint mapi_from {A B} (f : A -> Z -> B) (i : Z) (l : list A) : list B :=
  match l with
  | [] => []
  | x :: rest => f x i :: mapi_from f (i + 1) rest
  end.

Definition mapi {A B} (f : A -> Z -> B) (l : list A) : list B := mapi_from f 0 l.

Fixpoint startsWith (s prefix : jsstring) : bool :=
  match prefix, s with
  | [], _ => true
  | p :: prefix', c :: s' => Ascii.eqb c p && startsWith s' prefix'
  | _ :: _, [] => false
  end.

Definition endsWith (s suffix : jsstring) : bool :=
  startsWith (rev s) (rev suffix).

(** [c.repeat(n)] for a one-character string [c]. A negative count raises
    a RangeError in JavaScript; the count is a [nat] here. *)
Definition repeat_char (c : ascii) (n : nat) : jsstring := replicate n c.

Definition code (c : ascii) : N := N_of_ascii c.

(** The class [[a-z0-9]] under the [i] flag. *)
Definition is_alnum (c : ascii) : bool :=
  let n := code c in
  ((48 <=? n) && (n <=? 57) || (65 <=? n) && (n <=? 90) || (97 <=? n) && (n <=? 122))%N.

(** The class [\s] on code units below 256: TAB, LF, VT, FF, CR, space
    and the no-break space. *)
Definition is_space (c : ascii) : bool :=
  let n := code c in
  ((9 <=? n) && (n <=? 13) || (n =? 32) || (n =? 160))%N.

(** [line.match(/[^a-z0-9]([a-z0-9]+)$/i)], giving the capture group:
    the leftmost position holding a character outside the class that is
    followed, up to the end of the input, by one or more characters of the
    class. *)
Fixpoint match_last_word (line : jsstring) : option jsstring :=
  match line with
  | [] => None
  | c :: rest =>
      if negb (is_alnum c) && negb (str_eqb rest []) && forallb is_alnum rest
      then Some rest
      else match_last_word rest
  end.

(** [/\S/.test(s)]. *)
Definition test_non_space (s : jsstring) : bool := existsb (fun c => negb (is_space c)) s.

(** [line.match(/^\s+/)], giving the whole match. *)
Fixpoint leading_spaces (line : jsstring) : jsstring :=
  match line with
  | c :: rest => if is_space c then c :: leading_spaces rest else []
  | [] => []
  end.

Definition match_leading_spaces (line : jsstring) : option jsstring :=
  match leading_spaces line with
  | [] => None
  | ws => Some ws
  end.

(** ** Arrays *)

(** [array[i]]: [undefined] outside [0 .. length-1]. *)
Definition at_index {A} (l : list A) (i : Z) : option A :=
  if i <? 0 then None else l !! Z.to_nat i.

(** [array.slice(start, end)]: a negative index counts from the end. *)
Definition slice {A} (l : list A) (a b : Z) : list A :=
  let len := Z.of_nat (length l) in
  let rel k := if k <? 0 then Z.max (len + k) 0 else Z.min k len in
  let from := rel a in
  let to := rel b in
  take (Z.to_nat (to - from)) (drop (Z.to_nat from) l).

(** [array[i] = x] where the element at [i] is known to exist (both
    assignments of the component sit behind a truthiness test of
    [array[i]]). *)
Definition set_index {A} (l : list A) (i : Z) (x : A) : list A :=
  <[Z.to_nat i := x]> l.

(** [array.pop()] on the fresh array [getLines] returns: its last element. *)
Definition pop (lines : list jsstring) : jsstring := List.last lines [].

(** ** Module-level declarations *)

Record Rec := mkRec {
  value : jsstring;
  selectionStart : Z;
  selectionEnd : Z;
}.

(** [Rec & { timestamp: number }] *)
Record Entry := mkEntry {
  entry_rec : Rec;
  timestamp : Z;
}.

Record History := mkHistory {
  stack : list Entry;
  offset : Z;
}.

Definition HISTORY_LIMIT : Z := 100.
Definition HISTORY_TIME_GAP : Z := 3000.

Definition PAIRS (key : jsstring) : option (jsstring * jsstring) :=
  if str_eqb key (lit "(") then Some (lit "(", lit ")")
  else if str_eqb key (lit "[") then Some (lit "[", lit "]")
  else if str_eqb key (lit "{") then Some (lit "{", lit "}")
  else if str_eqb key [quote] then Some ([quote], [quote])
  else if str_eqb key (lit "'") then Some (lit "'", lit "'")
  else if str_eqb key (lit "`") then Some (lit "`", lit "`")
  else None.

(** [navigator.platform] tested against [/Win/i] and
    [/(Mac|iPhone|iPod|iPad)/i]. *)
Record Platform := mkPlatform {
  isWindows : bool;
  isMacLike : bool;
}.

Definition getLines (text : jsstring) (position : Z) : list jsstring :=
  split_lines (substring text 0 position).

(** ** Component state *)

(** The exported props the interpreter reads. [tabSize] is the argument of
    [String.prototype.repeat]. *)
Record Props := mkProps {
  insertSpaces : bool;
  tabSize : nat;
  ignoreTabKey : bool;
}.

Record KeyboardEvent := mkKey {
  key : jsstring;
  ctrlKey : bool;
  metaKey : bool;
  shiftKey : bool;
  altKey : bool;
}.

(** What [dispatch] sends to the component's listeners. *)
Inductive Dispatched :=
| ValueChange (v : jsstring)
| KeyDown (e : KeyboardEvent).

(** The [<textarea>] exposes [value], [selectionStart] and [selectionEnd],
    the three fields of a [Rec]; [focused] is what [blur()] clears. The
    surface keeps the fields as they are assigned. *)
Record Editor := mkEditor {
  bound_value : jsstring;
  textarea : Rec;
  focused : bool;
  capture : bool;
  history : History;
  dispatched : list Dispatched;
}.

Definition set_history (h : History) (ed : Editor) : Editor :=
  mkEditor (bound_value ed) (textarea ed) (focused ed) (capture ed) h (dispatched ed).

Definition dispatch (d : Dispatched) (ed : Editor) : Editor :=
  mkEditor (bound_value ed) (textarea ed) (focused ed) (capture ed) (history ed)
           (dispatched ed ++ [d]).

Definition blur (ed : Editor) : Editor :=
  mkEditor (bound_value ed) (textarea ed) false (capture ed) (history ed) (dispatched ed).

Definition toggle_capture (ed : Editor) : Editor :=
  mkEditor (bound_value ed) (textarea ed) (focused ed) (negb (capture ed)) (history ed)
           (dispatched ed).

(** The component before [onMount]: the markup binds [value] to the
    textarea, the history is empty and tab capture is on. Key events reach
    a focused textarea, so the runs start with the focus on it. *)
Definition create (surface : Rec) : Editor :=
  mkEditor (value surface) surface true true (mkHistory [] (-1)) [].

(** ** The edit history *)

(** The word-merge test of [recordChange]:
    [previous && current?.[1]?.startsWith(previous[1])]. *)
Definition word_merge (last record : Rec) : bool :=
  let previous := match_last_word (pop (getLines (value last) (selectionStart last))) in
  let current := match_last_word (pop (getLines (value record) (selectionStart record))) in
  match previous, current with
  | Some previous1, Some current1 => startsWith current1 previous1
  | _, _ => false
  end.

(** The first block of [recordChange]: drop the redo operations, then
    limit the number of operations. *)
Definition drop_redo (h : History) : History :=
  let stack0 := stack h in
  let offset0 := offset h in
  if negb (Z.of_nat (length stack0) =? 0) && (offset0 >? -1) then
    let sliced := slice stack0 0 (offset0 + 1) in
    let count := Z.of_nat (length sliced) in
    if count >? HISTORY_LIMIT then
      let extras := count - HISTORY_LIMIT in
      mkHistory (slice stack0 extras count) (Z.max (offset0 - extras) 0)
    else mkHistory sliced offset0
  else h.

Definition push (record : Rec) (now : Z) (h : History) : History :=
  mkHistory (stack h ++ [mkEntry record now]) (offset h + 1).

(** [recordChange] on the [history] variable; [now] is [timestamp]. *)
Definition recordChange_history (record : Rec) (overwrite : bool) (now : Z)
    (h : History) : History :=
  let h1 := drop_redo h in
  if overwrite then
    match at_index (stack h1) (offset h1) with
    | Some last =>
        if (now - timestamp last <? HISTORY_TIME_GAP)
           && word_merge (entry_rec last) record
        then mkHistory (set_index (stack h1) (offset h1) (mkEntry record now))
                       (offset h1)
        else push record now h1
    | None => push record now h1
    end
  else push record now h1.

Definition recordChange (record : Rec) (overwrite : bool) (now : Z) (ed : Editor) : Editor :=
  set_history (recordChange_history record overwrite now (history ed)) ed.

Definition recordCurrentState (now : Z) (ed : Editor) : Editor :=
  recordChange (textarea ed) false now ed.

Definition onMount (now : Z) (ed : Editor) : Editor := recordCurrentState now ed.

Definition updateInput (record : Rec) (ed : Editor) : Editor :=
  dispatch (ValueChange (value record))
    (mkEditor (value record) record (focused ed) (capture ed) (history ed) (dispatched ed)).

(** The selection back-patch at the head of [applyEdits]. *)
Definition save_selection (ed : Editor) : Editor :=
  let h := history ed in
  match at_index (stack h) (offset h) with
  | Some last =>
      let patched :=
        mkEntry (mkRec (value (entry_rec last))
                       (selectionStart (textarea ed)) (selectionEnd (textarea ed)))
                (timestamp last) in
      set_history (mkHistory (set_index (stack h) (offset h) patched) (offset h)) ed
  | None => ed
  end.

Definition applyEdits (record : Rec) (now : Z) (ed : Editor) : Editor :=
  updateInput record (recordChange record false now (save_selection ed)).

Definition undoEdit (ed : Editor) : Editor :=
  let h := history ed in
  match at_index (stack h) (offset h - 1) with
  | Some record =>
      set_history (mkHistory (stack h) (Z.max (offset h - 1) 0))
                  (updateInput (entry_rec record) ed)
  | None => ed
  end.

Definition redoEdit (ed : Editor) : Editor :=
  let h := history ed in
  match at_index (stack h) (offset h + 1) with
  | Some record =>
      set_history (mkHistory (stack h) (Z.min (offset h + 1) (Z.of_nat (length (stack h)) - 1)))
                  (updateInput (entry_rec record) ed)
  | None => ed
  end.

(** ** The key-command interpreter *)

(** [lines[i]] for an index that [getLines] always provides
    ([split] never returns an empty array). *)
Definition line_at (lines : list jsstring) (i : Z) : jsstring :=
  default [] (at_index lines i).

Definition len (s : jsstring) : Z := Z.of_nat (length s).

Definition is_pair_key (k : jsstring) : bool :=
  existsb (str_eqb k) [lit "("; lit "["; lit "{"; [quote]; lit "'"; lit "`"].

Section Interpreter.

Variable platform : Platform.
Variable props : Props.

Definition tabCharacter : jsstring :=
  repeat_char (if insertSpaces props then " "%char else tab) (tabSize props).

(** Shift+Tab: the record of the unindent branch, [None] when
    [value === nextValue]. *)
Definition unindent (t : Rec) : option Rec :=
  let linesBeforeCaret := getLines (value t) (selectionStart t) in
  let startLine := Z.of_nat (length linesBeforeCaret) - 1 in
  let endLine := Z.of_nat (length (getLines (value t) (selectionEnd t))) - 1 in
  let nextValue :=
    join_lines
      (mapi (fun line i =>
               if (i >=? startLine) && (i <=? endLine) && startsWith line tabCharacter
               then substring_from line (len tabCharacter)
               else line)
            (split_lines (value t))) in
  if negb (str_eqb (value t) nextValue) then
    let startLineText := line_at linesBeforeCaret startLine in
    Some (mkRec nextValue
                (if startsWith startLineText tabCharacter
                 then selectionStart t - len tabCharacter
                 else selectionStart t)
                (selectionEnd t - (len (value t) - len nextValue)))
  else None.

(** Tab over a selection: the record of the indent branch. *)
Definition indent (t : Rec) : Rec :=
  let linesBeforeCaret := getLines (value t) (selectionStart t) in
  let startLine := Z.of_nat (length linesBeforeCaret) - 1 in
  let endLine := Z.of_nat (length (getLines (value t) (selectionEnd t))) - 1 in
  let startLineText := line_at linesBeforeCaret startLine in
  mkRec
    (join_lines
       (mapi (fun line i =>
                if (i >=? startLine) && (i <=? endLine) then tabCharacter ++ line else line)
             (split_lines (value t))))
    (if test_non_space startLineText
     then selectionStart t + len tabCharacter
     else selectionStart t)
    (selectionEnd t + len tabCharacter * (endLine - startLine + 1)).

(** Tab at a caret. *)
Definition insert_tab (t : Rec) : Rec :=
  let updatedSelection := selectionStart t + len tabCharacter in
  mkRec (substring (value t) 0 (selectionStart t) ++ tabCharacter
           ++ substring_from (value t) (selectionEnd t))
        updatedSelection updatedSelection.

(** Backspace after a tab character. *)
Definition delete_tab (t : Rec) : Rec :=
  let updatedSelection := selectionStart t - len tabCharacter in
  mkRec (substring (value t) 0 (selectionStart t - len tabCharacter)
           ++ substring_from (value t) (selectionEnd t))
        updatedSelection updatedSelection.

(** Enter on a line that starts with white space [ws]. *)
Definition auto_indent (t : Rec) (ws : jsstring) : Rec :=
  let indent := newline :: ws in
  let updatedSelection := selectionStart t + len indent in
  mkRec (substring (value t) 0 (selectionStart t) ++ indent
           ++ substring_from (value t) (selectionEnd t))
        updatedSelection updatedSelection.

Definition wrap_selection (t : Rec) (chars : jsstring * jsstring) : Rec :=
  mkRec (substring (value t) 0 (selectionStart t) ++ fst chars
           ++ substring (value t) (selectionStart t) (selectionEnd t) ++ snd chars
           ++ substring_from (value t) (selectionEnd t))
        (selectionStart t) (selectionEnd t + 2).

Definition insert_pair (t : Rec) (chars : jsstring * jsstring) : Rec :=
  mkRec (substring (value t) 0 (selectionStart t) ++ fst chars ++ snd chars
           ++ substring_from (value t) (selectionEnd t))
        (selectionStart t + 1) (selectionStart t + 1).

Definition is_undo (e : KeyboardEvent) : bool :=
  (if isMacLike platform
   then metaKey e && str_eqb (key e) (lit "z")
   else ctrlKey e && str_eqb (key e) (lit "z"))
  && negb (shiftKey e) && negb (altKey e).

Definition is_redo (e : KeyboardEvent) : bool :=
  (if isMacLike platform
   then metaKey e && str_eqb (key e) (lit "z") && shiftKey e
   else if isWindows platform
        then ctrlKey e && str_eqb (key e) (lit "y")
        else ctrlKey e && str_eqb (key e) (lit "z") && shiftKey e)
  && negb (altKey e).

(** [handleKeyDown]; the boolean tells whether [e.preventDefault()] was
    called. The event target is the bound textarea. *)
Definition handleKeyDown (e : KeyboardEvent) (now : Z) (ed0 : Editor) : Editor * bool :=
  let ed := dispatch (KeyDown e) ed0 in
  if str_eqb (key e) (lit "Escape") then (blur ed, false)
  else
    let t := textarea ed in
    if str_eqb (key e) (lit "Tab") && negb (ignoreTabKey props) && capture ed then
      if shiftKey e then
        match unindent t with
        | Some record => (applyEdits record now ed, true)
        | None => (ed, true)
        end
      else if negb (selectionStart t =? selectionEnd t) then
        (applyEdits (indent t) now ed, true)
      else (applyEdits (insert_tab t) now ed, true)
    else if str_eqb (key e) (lit "Backspace") then
      let hasSelection := negb (selectionStart t =? selectionEnd t) in
      let textBeforeCaret := substring (value t) 0 (selectionStart t) in
      if endsWith textBeforeCaret tabCharacter && negb hasSelection
      then (applyEdits (delete_tab t) now ed, true)
      else (ed, false)
    else if str_eqb (key e) (lit "Enter") then
      if selectionStart t =? selectionEnd t then
        let line := pop (getLines (value t) (selectionStart t)) in
        match match_leading_spaces line with
        | Some ws => (applyEdits (auto_indent t ws) now ed, true)
        | None => (ed, false)
        end
      else (ed, false)
    else if is_pair_key (key e) then
      match PAIRS (key e) with
      | Some chars =>
          if negb (selectionStart t =? selectionEnd t)
          then (applyEdits (wrap_selection t chars) now ed, true)
          else (applyEdits (insert_pair t chars) now ed, true)
      | None => (ed, false)
      end
    else if is_undo e then (undoEdit ed, true)
    else if is_redo e then (redoEdit ed, true)
    else if str_eqb (key e) (lit "m") && ctrlKey e
            && (if isMacLike platform then shiftKey e else true)
    then (toggle_capture ed, true)
    else (ed, false).

End Interpreter.

(** [handleChange]: the textarea has changed by itself ([bind:value] has
    copied its text to [value]); the change coalesces. *)
Definition handleChange (now : Z) (ed : Editor) : Editor :=
  dispatch (ValueChange (value (textarea ed)))
           (recordChange (textarea ed) true now ed).

(** What the user does to the textarea without the component's code: a
    native edit or a caret move leaves the surface at [surface]. *)
Definition native (surface : Rec) (ed : Editor) : Editor :=
  mkEditor (value surface) surface (focused ed) (capture ed) (history ed) (dispatched ed).

(** ** The older copy of the component *)

(** [src/lib/Editor.svelte] declares the same types and constants and the
    same [recordChange], [applyEdits], [undoEdit], [redoEdit],
    [updateInput] and [handleChange]. Its [handleKeyDown] differs in three
    places: Escape does not return, Enter does not call
    [preventDefault], and a pair key only wraps a selection. *)
Module EditorSvelte.

Definition handleKeyDown (platform : Platform) (props : Props) (e : KeyboardEvent) (now : Z)
    (ed0 : Editor) : Editor * bool :=
  let ed1 := dispatch (KeyDown e) ed0 in
  let ed := if str_eqb (key e) (lit "Escape") then blur ed1 else ed1 in
  let t := textarea ed in
  if str_eqb (key e) (lit "Tab") && negb (ignoreTabKey props) && capture ed then
    if shiftKey e then
      match unindent props t with
      | Some record => (applyEdits record now ed, true)
      | None => (ed, true)
      end
    else if negb (selectionStart t =? selectionEnd t) then
      (applyEdits (indent props t) now ed, true)
    else (applyEdits (insert_tab props t) now ed, true)
  else if str_eqb (key e) (lit "Backspace") then
    let hasSelection := negb (selectionStart t =? selectionEnd t) in
    let textBeforeCaret := substring (value t) 0 (selectionStart t) in
    if endsWith textBeforeCaret (tabCharacter props) && negb hasSelection
    then (applyEdits (delete_tab props t) now ed, true)
    else (ed, false)
  else if str_eqb (key e) (lit "Enter") then
    if selectionStart t =? selectionEnd t then
      let line := pop (getLines (value t) (selectionStart t)) in
      match match_leading_spaces line with
      | Some ws => (applyEdits (auto_indent t ws) now ed, false)
      | None => (ed, false)
      end
    else (ed, false)
  else if is_pair_key (key e) then
    match PAIRS (key e) with
    | Some chars =>
        if negb (selectionStart t =? selectionEnd t)
        then (applyEdits (wrap_selection t chars) now ed, true)
        else (ed, false)
    | None => (ed, false)
    end
  else if is_undo platform e then (undoEdit ed, true)
  else if is_redo platform e then (redoEdit ed, true)
  else if str_eqb (key e) (lit "m") && ctrlKey e
          && (if isMacLike platform then shiftKey e else true)
  then (toggle_capture ed, true)
  else (ed, false).

End EditorSvelte.

(** ** Runs of the component *)

(** One thing that happens to a mounted editor: a call of one of the
    history functions, or an event of the host surface. *)
Inductive Op :=
| OpRecord (record : Rec) (overwrite : bool) (now : Z)
| OpEdit (record : Rec) (now : Z)
| OpUndo
| OpRedo
| OpNative (surface : Rec)
| OpChange (now : Z)
| OpKey (e : KeyboardEvent) (now : Z).

Definition step (platform : Platform) (props : Props) (ed : Editor) (op : Op) : Editor :=
  match op with
  | OpRecord record overwrite now => recordChange record overwrite now ed
  | OpEdit record now => applyEdits record now ed
  | OpUndo => undoEdit ed
  | OpRedo => redoEdit ed
  | OpNative surface => native surface ed
  | OpChange now => handleChange now ed
  | OpKey e now => fst (handleKeyDown platform props e now ed)
  end.

Definition run (platform : Platform) (props : Props) (ops : list Op) (ed : Editor) : Editor :=
  fold_left (step platform props) ops ed.

(** The history invariant the code maintains: the stack holds at most
    [limit] entries and the offset is a position of the stack, or [-1]. *)
Definition history_ok (limit : Z) (h : History) : Prop :=
  Z.of_nat (length (stack h)) <= limit /\ -1 <= offset h < Z.of_nat (length (stack h)).

(** The same, with what makes it inductive: the offset is [-1] only on
    the empty stack. *)
Definition history_inv (h : History) : Prop :=
  (stack h = [] /\ offset h = -1)
  \/ (0 <= offset h < Z.of_nat (length (stack h))
      /\ Z.of_nat (length (stack h)) <= HISTORY_LIMIT + 1).

(** The cursor is on the newest entry. *)
Definition at_top (h : History) : Prop :=
  0 <= offset h /\ offset h = Z.of_nat (length (stack h)) - 1.

(** The surface shows the entry under the cursor. *)
Definition synced (ed : Editor) : Prop :=
  exists e, at_index (stack (history ed)) (offset (history ed)) = Some e
            /\ textarea ed = entry_rec e.

(** The entry under the cursor replaced by [e]. *)
Definition overwrite_top (h : History) (e : Entry) : History :=
  mkHistory (set_index (stack h) (offset h) e) (offset h).

(** The user types: the textarea changes by itself to [surface] and the
    change event is handled at time [now], for each element of the chain. *)
Definition type_changes (chain : list (Rec * Z)) (ed : Editor) : Editor :=
  fold_left (fun ed c => handleChange (snd c) (native (fst c) ed)) chain ed.

(** Every change of the chain comes less than [HISTORY_TIME_GAP] after the
    one before it (the first one, after [last]) and passes the word-merge
    test against it. *)
Fixpoint chain_ok (last : Entry) (chain : list (Rec * Z)) : Prop :=
  match chain with
  | [] => True
  | c :: rest =>
      snd c - timestamp last < HISTORY_TIME_GAP
      /\ word_merge (entry_rec last) (fst c) = true
      /\ chain_ok (mkEntry (fst c) (snd c)) rest
  end.

(** The invariant of a record: [0 <= selectionStart <= selectionEnd <=
    length value]. *)
Definition rec_ok (r : Rec) : Prop :=
  0 <= selectionStart r <= selectionEnd r /\ selectionEnd r <= len (value r).

(** A key pressed without Ctrl, Meta or Alt. *)
Definition key_of (k : string) (shift : bool) : KeyboardEvent :=
  mkKey (lit k) false false shift false.

(** How many of the [n] lines numbered from [i] the indent branch
    prefixes: those whose number lies in [startLine .. endLine]. *)
Fixpoint indented_lines (startLine endLine i : Z) (n : nat) : Z :=
  match n with
  | O => 0
  | S n' =>
      (if (i >=? startLine) && (i <=? endLine) then 1 else 0)
      + indented_lines startLine endLine (i + 1) n'
  end.

(** The lines hold no newline, as the lines [split] returns. *)
Definition nl_free (lines : list jsstring) : Prop := Forall (fun l => ~ In newline l) lines.

(** ** Arrays and strings: basic facts *)

Lemma at_index_Some {A} (l : list A) (i : Z) (x : A) :
  at_index l i = Some x -> 0 <= i < Z.of_nat (length l).
Proof.
  unfold at_index. destruct (Z.ltb_spec i 0); [discriminate|].
  intros Hx%lookup_lt_Some. lia.
Qed.

Lemma at_index_None {A} (l : list A) (i : Z) :
  i < 0 \/ Z.of_nat (length l) <= i -> at_index l i = None.
Proof.
  unfold at_index. destruct (Z.ltb_spec i 0); [done|].
  intros [?|?]; [lia|]. apply lookup_ge_None. lia.
Qed.

Lemma at_index_is_Some {A} (l : list A) (i : Z) :
  0 <= i < Z.of_nat (length l) -> exists x, at_index l i = Some x.
Proof.
  intros Hi. unfold at_index. destruct (Z.ltb_spec i 0); [lia|].
  destruct (lookup_lt_is_Some_2 l (Z.to_nat i)) as [x Hx]; [lia|]. eauto.
Qed.

Lemma at_index_last {A} (l : list A) (x : A) :
  at_index (l ++ [x]) (Z.of_nat (length l)) = Some x.
Proof.
  unfold at_index. destruct (Z.ltb_spec (Z.of_nat (length l)) 0); [lia|].
  rewrite Nat2Z.id, lookup_app_r by lia. by rewrite Nat.sub_diag.
Qed.

Lemma at_index_app_l {A} (l k : list A) (i : Z) :
  i < Z.of_nat (length l) -> at_index (l ++ k) i = at_index l i.
Proof.
  intros Hi. unfold at_index. destruct (Z.ltb_spec i 0); [done|].
  apply lookup_app_l. lia.
Qed.

Lemma length_set_index {A} (l : list A) (i : Z) (x : A) :
  length (set_index l i x) = length l.
Proof. apply length_insert. Qed.

Lemma at_index_set_index {A} (l : list A) (i : Z) (x : A) :
  0 <= i < Z.of_nat (length l) -> at_index (set_index l i x) i = Some x.
Proof.
  intros Hi. unfold at_index, set_index. destruct (Z.ltb_spec i 0); [lia|].
  apply list_lookup_insert_eq. lia.
Qed.

Lemma slice_take_drop {A} (l : list A) (a b : Z) :
  0 <= a -> 0 <= b <= Z.of_nat (length l) ->
  slice l a b = take (Z.to_nat (b - a)) (drop (Z.to_nat a) l).
Proof.
  intros Ha Hb. unfold slice.
  destruct (Z.ltb_spec a 0); [lia|]. destruct (Z.ltb_spec b 0); [lia|].
  destruct (Z.le_gt_cases a (Z.of_nat (length l))).
  - by rewrite (Z.min_l a), (Z.min_l b) by lia.
  - rewrite (Z.min_r a), (Z.min_l b) by lia.
    by replace (Z.to_nat (b - Z.of_nat (length l))) with 0%nat
      by lia; replace (Z.to_nat (b - a)) with 0%nat by lia.
Qed.

Lemma slice_prefix {A} (l : list A) (b : Z) :
  0 <= b -> slice l 0 b = take (Z.to_nat b) l.
Proof.
  intros Hb. unfold slice.
  destruct (Z.ltb_spec b 0); [lia|]. destruct (Z.ltb_spec 0 0); [lia|].
  rewrite (Z.min_l 0) by lia. simpl. rewrite Z.sub_0_r.
  destruct (Z.le_gt_cases b (Z.of_nat (length l))).
  - by rewrite Z.min_l by lia.
  - rewrite Z.min_r by lia. rewrite !take_ge; [done|lia|rewrite length_drop; lia].
Qed.

(** ** The history functions keep the invariant *)

(** After the first block of [recordChange] the cursor is on the last
    entry, the entry under it is the one it was on, and at most
    [HISTORY_LIMIT] entries are left. *)
Lemma drop_redo_top (h : History) :
  0 <= offset h < Z.of_nat (length (stack h)) ->
  at_top (drop_redo h)
  /\ Z.of_nat (length (stack (drop_redo h))) <= HISTORY_LIMIT
  /\ at_index (stack (drop_redo h)) (offset (drop_redo h)) = at_index (stack h) (offset h).
Proof.
  intros Hoff. unfold drop_redo, at_top, HISTORY_LIMIT.
  destruct (Z.eqb_spec (Z.of_nat (length (stack h))) 0) as [|_]; [lia|].
  destruct (Z.gtb_spec (offset h) (-1)) as [_|]; [|lia]. simpl.
  rewrite slice_prefix, length_take by lia.
  destruct (Z.gtb_spec (Z.of_nat (Z.to_nat (offset h + 1) `min` length (stack h))) 100)
    as [Hbig|Hsmall]; simpl.
  - rewrite slice_take_drop by lia. rewrite length_take, length_drop.
    split; [lia|]. split; [lia|].
    unfold at_index.
    destruct (Z.ltb_spec (Z.max (offset h - (Z.of_nat (Z.to_nat (offset h + 1) `min` length (stack h)) - 100)) 0) 0); [lia|].
    destruct (Z.ltb_spec (offset h) 0); [lia|].
    rewrite lookup_take_lt by lia. rewrite lookup_drop. f_equal. lia.
  - rewrite length_take. split; [lia|]. split; [lia|].
    unfold at_index. destruct (Z.ltb_spec (offset h) 0); [lia|].
    apply lookup_take_lt. lia.
Qed.

(** On an empty history the first block does nothing. *)
Lemma drop_redo_empty (h : History) : stack h = [] -> drop_redo h = h.
Proof. intros E. unfold drop_redo. by rewrite E. Qed.

(** With the cursor on the newest of at most [HISTORY_LIMIT] entries
    nothing is dropped. *)
Lemma drop_redo_id (h : History) :
  at_top h -> Z.of_nat (length (stack h)) <= HISTORY_LIMIT -> drop_redo h = h.
Proof.
  intros [H0 Htop] Hlen. unfold drop_redo, HISTORY_LIMIT in *.
  destruct (Z.eqb_spec (Z.of_nat (length (stack h))) 0) as [|_]; [lia|].
  destruct (Z.gtb_spec (offset h) (-1)) as [_|]; [|lia]. simpl.
  rewrite slice_prefix, length_take by lia.
  destruct (Z.gtb_spec (Z.of_nat (Z.to_nat (offset h + 1) `min` length (stack h))) 100);
    [lia|].
  rewrite take_ge by lia. by destruct h.
Qed.

Lemma push_at_top (record : Rec) (now : Z) (h : History) :
  offset h = Z.of_nat (length (stack h)) - 1 -> at_top (push record now h).
Proof. intros E. unfold at_top, push. simpl. rewrite length_app. simpl. lia. Qed.

Lemma at_top_inv (h : History) :
  at_top h -> Z.of_nat (length (stack h)) <= HISTORY_LIMIT + 1 -> history_inv h.
Proof. intros [? ?] ?. right. lia. Qed.

Lemma recordChange_history_inv (record : Rec) (overwrite : bool) (now : Z) (h : History) :
  history_inv h -> history_inv (recordChange_history record overwrite now h).
Proof.
  intros [[E Eo]|[Hoff Hlen]]; unfold recordChange_history.
  - rewrite drop_redo_empty by done. rewrite E, Eo.
    destruct overwrite; right; unfold HISTORY_LIMIT; simpl; rewrite E, Eo; simpl; lia.
  - destruct (drop_redo_top h Hoff) as ([H0 Htop] & Hlim & Hlast).
    assert (history_inv (push record now (drop_redo h))) as Hpush.
    { apply at_top_inv; [by apply push_at_top|].
      unfold push. simpl. rewrite length_app. simpl. lia. }
    destruct overwrite; [|done].
    destruct (at_index _ _) as [last|]; [|done].
    destruct (_ && _); [|done].
    right. cbn [stack offset]. rewrite length_set_index. lia.
Qed.

Lemma save_selection_inv (ed : Editor) :
  history_inv (history ed) -> history_inv (history (save_selection ed)).
Proof.
  intros Hinv. unfold save_selection.
  destruct (at_index _ _) as [last|] eqn:E; [|done].
  apply at_index_Some in E. right.
  cbn [history set_history stack offset]. rewrite length_set_index.
  destruct Hinv as [[Es Eo]|[Hoff Hlen]]; [rewrite Es in E; simpl in E|]; lia.
Qed.

Lemma undoEdit_inv (ed : Editor) :
  history_inv (history ed) -> history_inv (history (undoEdit ed)).
Proof.
  intros Hinv. unfold undoEdit.
  destruct (at_index _ _) as [record|] eqn:E; [|done].
  apply at_index_Some in E. right. simpl.
  destruct Hinv as [[Es Eo]|[Hoff Hlen]]; [rewrite Es in E; simpl in E|]; lia.
Qed.

Lemma redoEdit_inv (ed : Editor) :
  history_inv (history ed) -> history_inv (history (redoEdit ed)).
Proof.
  intros Hinv. unfold redoEdit.
  destruct (at_index _ _) as [record|] eqn:E; [|done].
  apply at_index_Some in E. right. simpl.
  destruct Hinv as [[Es Eo]|[Hoff Hlen]]; [rewrite Es in E; simpl in E|]; lia.
Qed.

Lemma history_applyEdits (record : Rec) (now : Z) (ed : Editor) :
  history (applyEdits record now ed)
  = recordChange_history record false now (history (save_selection ed)).
Proof. reflexivity. Qed.

Lemma textarea_applyEdits (record : Rec) (now : Z) (ed : Editor) :
  textarea (applyEdits record now ed) = record.
Proof. reflexivity. Qed.

Lemma applyEdits_inv (record : Rec) (now : Z) (ed : Editor) :
  history_inv (history ed) -> history_inv (history (applyEdits record now ed)).
Proof.
  intros Hinv. rewrite history_applyEdits.
  by apply recordChange_history_inv, save_selection_inv.
Qed.

Lemma handleKeyDown_inv (platform : Platform) (props : Props) (e : KeyboardEvent) (now : Z)
    (ed : Editor) :
  history_inv (history ed) ->
  history_inv (history (fst (handleKeyDown platform props e now ed))).
Proof.
  intros Hinv.
  assert (history_inv (history (dispatch (KeyDown e) ed))) as Hd by done.
  unfold handleKeyDown.
  repeat case_match; simpl fst;
    first [ by apply applyEdits_inv | by apply undoEdit_inv | by apply redoEdit_inv | done ].
Qed.

Lemma step_inv (platform : Platform) (props : Props) (ed : Editor) (op : Op) :
  history_inv (history ed) -> history_inv (history (step platform props ed op)).
Proof.
  intros Hinv. destruct op; cbn [step].
  - by apply recordChange_history_inv.
  - by apply applyEdits_inv.
  - by apply undoEdit_inv.
  - by apply redoEdit_inv.
  - done.
  - by apply recordChange_history_inv.
  - by apply handleKeyDown_inv.
Qed.

Lemma run_inv (platform : Platform) (props : Props) (ops : list Op) (ed : Editor) :
  history_inv (history ed) -> history_inv (history (run platform props ops ed)).
Proof.
  revert ed. induction ops as [|op ops IH]; intros ed Hinv; [done|].
  simpl. apply IH. by apply step_inv.
Qed.

Lemma create_inv (surface : Rec) : history_inv (history (create surface)).
Proof. by left. Qed.

(** Every state the component reaches from its creation keeps the stack
    within [HISTORY_LIMIT + 1] entries and the offset inside it. *)
Lemma reachable_history_ok (platform : Platform) (props : Props) (surface : Rec)
    (ops : list Op) :
  history_ok (HISTORY_LIMIT + 1) (history (run platform props ops (create surface))).
Proof.
  destruct (run_inv platform props ops (create surface) (create_inv surface))
    as [[E Eo]|[Hoff Hlen]]; unfold history_ok.
  - rewrite E, Eo. unfold HISTORY_LIMIT. simpl. lia.
  - lia.
Qed.

(** A structural edit leaves the cursor on the entry it has pushed. *)
Lemma recordChange_push_top (record : Rec) (now : Z) (h : History) :
  history_inv h ->
  at_top (recordChange_history record false now h)
  /\ exists pre, stack (recordChange_history record false now h) = pre ++ [mkEntry record now]
                 /\ (0 <= offset h -> pre <> []).
Proof.
  intros [[E Eo]|[Hoff Hlen]]; unfold recordChange_history.
  - rewrite drop_redo_empty by done. split.
    + apply push_at_top. rewrite E, Eo. simpl. lia.
    + exists (stack h). split; [done|]. lia.
  - destruct (drop_redo_top h Hoff) as ([H0 Htop] & Hlim & Hlast). split.
    + by apply push_at_top.
    + exists (stack (drop_redo h)). split; [done|].
      intros _ E. rewrite E in Htop. simpl in Htop. lia.
Qed.

Lemma undoEdit_none (ed : Editor) :
  at_index (stack (history ed)) (offset (history ed) - 1) = None -> undoEdit ed = ed.
Proof. intros E. unfold undoEdit. by rewrite E. Qed.

Lemma redoEdit_none (ed : Editor) :
  at_index (stack (history ed)) (offset (history ed) + 1) = None -> redoEdit ed = ed.
Proof. intros E. unfold redoEdit. by rewrite E. Qed.

Lemma redoEdit_at_top (ed : Editor) : at_top (history ed) -> redoEdit ed = ed.
Proof. intros [H0 Htop]. apply redoEdit_none, at_index_None. lia. Qed.

(** ** Undo and redo as moves of the cursor *)

Lemma undoEdit_synced (ed : Editor) :
  synced ed ->
  synced (undoEdit ed)
  /\ stack (history (undoEdit ed)) = stack (history ed)
  /\ offset (history (undoEdit ed)) = Z.max (offset (history ed) - 1) 0.
Proof.
  intros (e & He & Hta). pose proof (at_index_Some _ _ _ He) as Hoff.
  unfold undoEdit. destruct (at_index _ (offset (history ed) - 1)) as [record|] eqn:E.
  - apply at_index_Some in E as Hi. cbn [history set_history updateInput dispatch stack offset].
    split; [|done]. exists record. unfold synced. simpl.
    by rewrite Z.max_l by lia.
  - split; [by exists e|]. split; [done|].
    destruct (Z.le_gt_cases 1 (offset (history ed))) as [Hge|Hlt]; [|lia].
    destruct (at_index_is_Some (stack (history ed)) (offset (history ed) - 1)) as [x Hx];
      [lia|congruence].
Qed.

Lemma redoEdit_synced (ed : Editor) :
  synced ed ->
  synced (redoEdit ed)
  /\ stack (history (redoEdit ed)) = stack (history ed)
  /\ offset (history (redoEdit ed))
     = Z.min (offset (history ed) + 1) (Z.of_nat (length (stack (history ed))) - 1).
Proof.
  intros (e & He & Hta). pose proof (at_index_Some _ _ _ He) as Hoff.
  unfold redoEdit. destruct (at_index _ (offset (history ed) + 1)) as [record|] eqn:E.
  - apply at_index_Some in E as Hi. cbn [history set_history updateInput dispatch stack offset].
    split; [|done]. exists record. unfold synced. simpl.
    by rewrite Z.min_l by lia.
  - split; [by exists e|]. split; [done|].
    destruct (Z.le_gt_cases (Z.of_nat (length (stack (history ed)))) (offset (history ed) + 1))
      as [Hge|Hlt]; [lia|].
    destruct (at_index_is_Some (stack (history ed)) (offset (history ed) + 1)) as [x Hx];
      [lia|congruence].
Qed.

Lemma undo_times (n : nat) (ed : Editor) :
  synced ed ->
  synced (Nat.iter n undoEdit ed)
  /\ stack (history (Nat.iter n undoEdit ed)) = stack (history ed)
  /\ offset (history (Nat.iter n undoEdit ed)) = Z.max (offset (history ed) - Z.of_nat n) 0.
Proof.
  intros Hs. pose proof Hs as (e & He%at_index_Some & _).
  induction n as [|n (IHs & IHst & IHo)].
  - simpl. split; [done|]. split; [done|]. lia.
  - simpl Nat.iter. destruct (undoEdit_synced _ IHs) as (Hs' & Hst & Ho).
    split; [done|]. split; [congruence|]. rewrite Ho, IHo. lia.
Qed.

Lemma redo_times (n : nat) (ed : Editor) :
  synced ed ->
  synced (Nat.iter n redoEdit ed)
  /\ stack (history (Nat.iter n redoEdit ed)) = stack (history ed)
  /\ offset (history (Nat.iter n redoEdit ed))
     = Z.min (offset (history ed) + Z.of_nat n) (Z.of_nat (length (stack (history ed))) - 1).
Proof.
  intros Hs. pose proof Hs as (e & He%at_index_Some & _).
  induction n as [|n (IHs & IHst & IHo)].
  - simpl. split; [done|]. split; [done|]. lia.
  - simpl Nat.iter. destruct (redoEdit_synced _ IHs) as (Hs' & Hst & Ho).
    split; [done|]. split; [congruence|]. rewrite Ho, IHo, IHst. lia.
Qed.

Lemma synced_textarea (ed ed' : Editor) :
  synced ed -> synced ed' -> history ed' = history ed -> textarea ed' = textarea ed.
Proof. intros (e & He & Hta) (e' & He' & Hta') Hh. rewrite Hh in He'. congruence. Qed.

(** From the newest entry, [n] undos and then [n] redos come back to it. *)
Lemma undo_redo_times (n : nat) (ed : Editor) :
  synced ed -> at_top (history ed) ->
  history (Nat.iter n redoEdit (Nat.iter n undoEdit ed)) = history ed
  /\ textarea (Nat.iter n redoEdit (Nat.iter n undoEdit ed)) = textarea ed.
Proof.
  intros Hs [H0 Htop].
  destruct (undo_times n ed Hs) as (Hs1 & Hst1 & Ho1).
  destruct (redo_times n _ Hs1) as (Hs2 & Hst2 & Ho2).
  assert (history (Nat.iter n redoEdit (Nat.iter n undoEdit ed)) = history ed) as Hh.
  { destruct (history (Nat.iter n redoEdit (Nat.iter n undoEdit ed))) as [st o].
    destruct (history ed) as [st0 o0]. simpl in *.
    destruct (history (Nat.iter n undoEdit ed)) as [st1 o1]. simpl in *.
    subst. f_equal. lia. }
  split; [done|]. by apply synced_textarea.
Qed.

Lemma applyEdits_synced (record : Rec) (now : Z) (ed : Editor) :
  history_inv (history ed) ->
  synced (applyEdits record now ed) /\ at_top (history (applyEdits record now ed)).
Proof.
  intros Hinv. apply save_selection_inv in Hinv.
  destruct (recordChange_push_top record now _ Hinv) as ([H0 Htop] & pre & Hst & _).
  rewrite <- history_applyEdits in H0, Htop, Hst. split; [|done].
  exists (mkEntry record now). split; [|done].
  rewrite Htop, Hst, length_app. simpl.
  replace (Z.of_nat (length pre + 1) - 1) with (Z.of_nat (length pre)) by lia.
  apply at_index_last.
Qed.

(** Once the mount entry is recorded the offset never goes back to [-1]. *)
Lemma recordChange_history_offset (record : Rec) (overwrite : bool) (now : Z) (h : History) :
  history_inv h -> 0 <= offset (recordChange_history record overwrite now h).
Proof.
  intros Hinv.
  assert (-1 <= offset (drop_redo h)) as Hge.
  { destruct Hinv as [[E Eo]|[Hoff Hlen]].
    - rewrite drop_redo_empty by done. lia.
    - destruct (drop_redo_top h Hoff) as ([H0 _] & _). lia. }
  unfold recordChange_history.
  destruct overwrite; [|simpl; lia].
  destruct (at_index _ _) as [last|] eqn:E; [|simpl; lia].
  apply at_index_Some in E. destruct (_ && _); simpl; lia.
Qed.

Lemma undoEdit_offset (ed : Editor) :
  0 <= offset (history ed) -> 0 <= offset (history (undoEdit ed)).
Proof. intros H0. unfold undoEdit. destruct (at_index _ _); simpl; lia. Qed.

Lemma redoEdit_offset (ed : Editor) :
  0 <= offset (history ed) -> 0 <= offset (history (redoEdit ed)).
Proof.
  intros H0. unfold redoEdit. destruct (at_index _ _) eqn:E; [|done].
  apply at_index_Some in E. simpl. lia.
Qed.

Lemma applyEdits_offset (record : Rec) (now : Z) (ed : Editor) :
  history_inv (history ed) -> 0 <= offset (history (applyEdits record now ed)).
Proof.
  intros Hinv. rewrite history_applyEdits.
  by apply recordChange_history_offset, save_selection_inv.
Qed.

Lemma step_offset (platform : Platform) (props : Props) (ed : Editor) (op : Op) :
  history_inv (history ed) -> 0 <= offset (history ed) ->
  0 <= offset (history (step platform props ed op)).
Proof.
  intros Hinv H0. destruct op; cbn [step].
  - by apply recordChange_history_offset.
  - by apply applyEdits_offset.
  - by apply undoEdit_offset.
  - by apply redoEdit_offset.
  - done.
  - by apply recordChange_history_offset.
  - assert (0 <= offset (history (dispatch (KeyDown e) ed))) as Hd by done.
    assert (history_inv (history (dispatch (KeyDown e) ed))) as Hi by done.
    unfold handleKeyDown.
    repeat case_match; simpl fst;
      first [ by apply applyEdits_offset | by apply undoEdit_offset
            | by apply redoEdit_offset | done ].
Qed.

Lemma run_mounted (platform : Platform) (props : Props) (ops : list Op) (ed : Editor) :
  history_inv (history ed) -> 0 <= offset (history ed) ->
  history_inv (history (run platform props ops ed))
  /\ 0 <= offset (history (run platform props ops ed)).
Proof.
  revert ed. induction ops as [|op ops IH]; intros ed Hinv H0; [done|].
  simpl. apply IH; [by apply step_inv|by apply step_offset].
Qed.

Lemma onMount_mounted (now : Z) (surface : Rec) :
  history_inv (history (onMount now (create surface)))
  /\ 0 <= offset (history (onMount now (create surface))).
Proof. split; [right; unfold HISTORY_LIMIT|]; simpl; lia. Qed.

(** ** The claims *)

(** C1 (the limit part fails on the code): the mount entry and one hundred
    structural edits leave 101 entries on the stack. [recordChange] trims
    the stack to [HISTORY_LIMIT] before it pushes, so the stack that a
    record leaves behind holds up to [HISTORY_LIMIT + 1] entries; the
    bound [-1 <= offset < length stack] holds (see
    [reachable_history_ok]). *)
Theorem history_limit_overrun :
  let edit := mkRec (lit "x") 1 1 in
  let ed := run (mkPlatform false false) (mkProps true 2 false)
                (repeat (OpEdit edit 0) 100) (onMount 0 (create (mkRec [] 0 0))) in
  Z.of_nat (length (stack (history ed))) = 101
  /\ offset (history ed) = 100
  /\ ~ history_ok HISTORY_LIMIT (history ed).
Proof.
  assert (Z.of_nat (length (stack (history
            (run (mkPlatform false false) (mkProps true 2 false)
                 (repeat (OpEdit (mkRec (lit "x") 1 1) 0) 100)
                 (onMount 0 (create (mkRec [] 0 0))))))) = 101) as Hlen
    by (vm_compute; reflexivity).
  cbv zeta. split; [exact Hlen|]. split; [vm_compute; reflexivity|].
  unfold history_ok, HISTORY_LIMIT. rewrite Hlen. lia.
Qed.

(** C4: when a run of the editor ends with a structural edit, one [undo]
    puts on the surface the value and selection of the entry just below
    the pushed one, and [n] undos followed by [n] redos bring the history
    (stack and offset) and the surface (value and selection) back to what
    they were before the undos. *)
Theorem undo_redo_inverse (platform : Platform) (props : Props) (surface : Rec) (t0 : Z)
    (ops : list Op) (record : Rec) (now : Z) (n : nat) :
  let ed := applyEdits record now (run platform props ops (onMount t0 (create surface))) in
  (exists pre e,
      stack (history ed) = pre ++ [e; mkEntry record now]
      /\ textarea (undoEdit ed) = entry_rec e
      /\ offset (history (undoEdit ed)) = offset (history ed) - 1)
  /\ history (Nat.iter n redoEdit (Nat.iter n undoEdit ed)) = history ed
  /\ textarea (Nat.iter n redoEdit (Nat.iter n undoEdit ed)) = textarea ed.
Proof.
  intros ed.
  destruct (onMount_mounted t0 surface) as [Hi0 Ho0].
  destruct (run_mounted platform props ops _ Hi0 Ho0) as [Hinv H0].
  destruct (applyEdits_synced record now _ Hinv) as [Hs Htop]. fold ed in Hs, Htop.
  split; [|by apply undo_redo_times].
  pose proof (save_selection_inv _ Hinv) as Hinv'.
  destruct (recordChange_push_top record now _ Hinv') as (_ & pre & Hst & Hne).
  rewrite <- history_applyEdits in Hst. fold ed in Hst.
  destruct (exists_last (Hne ltac:(unfold save_selection; case_match; simpl; lia)))
    as (pre' & e & ->).
  assert (stack (history ed) = pre' ++ [e; mkEntry record now]) as Hst'
    by (by rewrite Hst, <- app_assoc).
  exists pre', e. split; [done|].
  destruct Htop as [Hge Htop].
  assert (Z.of_nat (length (stack (history ed))) = Z.of_nat (length pre') + 2) as Hlen
    by (rewrite Hst', length_app; simpl; lia).
  assert (at_index (stack (history ed)) (offset (history ed) - 1) = Some e) as He.
  { rewrite Htop, Hlen, Hst'.
    change (pre' ++ [e; mkEntry record now]) with (pre' ++ [e] ++ [mkEntry record now]).
    rewrite app_assoc, at_index_app_l by (rewrite length_app; simpl; lia).
    replace (Z.of_nat (length pre') + 2 - 1 - 1) with (Z.of_nat (length pre')) by lia.
    apply at_index_last. }
  unfold undoEdit. rewrite He. split; [done|].
  cbn [history set_history offset]. lia.
Qed.

(** C5: after [undo] and a new structural edit, [redo] changes nothing:
    the edit has dropped every entry above the cursor and left the cursor
    on the entry it pushed. *)
Theorem redo_after_new_edit_is_noop (platform : Platform) (props : Props) (surface : Rec)
    (ops : list Op) (record : Rec) (now : Z) :
  let ed := applyEdits record now (undoEdit (run platform props ops (create surface))) in
  redoEdit ed = ed
  /\ at_index (stack (history ed)) (offset (history ed) + 1) = None.
Proof.
  intros ed.
  pose proof (run_inv platform props ops _ (create_inv surface)) as Hinv.
  apply undoEdit_inv in Hinv.
  destruct (applyEdits_synced record now _ Hinv) as [_ Htop]. fold ed in Htop.
  split; [by apply redoEdit_at_top|].
  destruct Htop as [H0 Htop]. apply at_index_None. lia.
Qed.

(** C9: [undo] on the oldest entry or on an empty history, and [redo] on
    the newest entry, return the editor as it is: same stack, same offset,
    same surface, nothing dispatched. *)
Theorem undo_redo_at_bounds (ed : Editor) :
  (offset (history ed) = 0 \/ stack (history ed) = [] -> undoEdit ed = ed)
  /\ (offset (history ed) = Z.of_nat (length (stack (history ed))) - 1 -> redoEdit ed = ed).
Proof.
  split.
  - intros [E|E]; apply undoEdit_none.
    + apply at_index_None. lia.
    + rewrite E. unfold at_index. by destruct (_ <? _).
  - intros E. apply redoEdit_none, at_index_None. lia.
Qed.

Lemma undo_redo_at_bounds_witness :
  let ed := onMount 0 (create (mkRec (lit "x") 1 1)) in
  undoEdit ed = ed /\ redoEdit ed = ed.
Proof.
  split.
  - apply (proj1 (undo_redo_at_bounds (onMount 0 (create (mkRec (lit "x") 1 1))))).
    left. reflexivity.
  - apply (proj2 (undo_redo_at_bounds (onMount 0 (create (mkRec (lit "x") 1 1))))).
    reflexivity.
Defined.

(** ** Coalescing *)

Lemma length_slice {A} (l : list A) (a b : Z) : (length (slice l a b) <= length l)%nat.
Proof. unfold slice. rewrite length_take, length_drop. lia. Qed.

Lemma drop_redo_length (h : History) :
  (length (stack (drop_redo h)) <= length (stack h))%nat.
Proof.
  unfold drop_redo. repeat case_match; cbn [stack]; try apply length_slice. done.
Qed.

Lemma history_handleChange (now : Z) (surface : Rec) (ed : Editor) :
  history (handleChange now (native surface ed))
  = recordChange_history surface true now (history ed).
Proof. reflexivity. Qed.

Lemma coalesce_step (h : History) (last : Entry) (record : Rec) (now : Z) :
  at_index (stack h) (offset h) = Some last ->
  now - timestamp last < HISTORY_TIME_GAP ->
  word_merge (entry_rec last) record = true ->
  recordChange_history record true now h = overwrite_top (drop_redo h) (mkEntry record now).
Proof.
  intros Hlast Hgap Hmerge. pose proof (at_index_Some _ _ _ Hlast) as Hoff.
  destruct (drop_redo_top h Hoff) as (_ & _ & Hsame).
  unfold recordChange_history. rewrite Hsame, Hlast, Hmerge.
  by destruct (Z.ltb_spec (now - timestamp last) HISTORY_TIME_GAP); [|lia].
Qed.

Lemma overwrite_top_again (h : History) (e e' : Entry) :
  overwrite_top (overwrite_top h e) e' = overwrite_top h e'.
Proof. unfold overwrite_top, set_index. simpl. by rewrite list_insert_insert_eq. Qed.

Lemma drop_redo_overwrite_top (h : History) (e : Entry) :
  at_top h -> Z.of_nat (length (stack h)) <= HISTORY_LIMIT ->
  drop_redo (overwrite_top h e) = overwrite_top h e.
Proof.
  intros Htop Hlen. apply drop_redo_id; unfold at_top, overwrite_top in *;
    cbn [stack offset]; by rewrite length_set_index.
Qed.

Lemma last_cons {A} (l : list A) (x d : A) : List.last (x :: l) d = List.last l x.
Proof.
  revert x d. induction l as [|y l IH]; intros x d; [done|].
  change (List.last (x :: y :: l) d) with (List.last (y :: l) d).
  by rewrite !IH.
Qed.

Lemma coalesce_chain (chain : list (Rec * Z)) (c : Rec * Z) (h : History) (e : Entry) :
  at_top h -> Z.of_nat (length (stack h)) <= HISTORY_LIMIT ->
  chain_ok (mkEntry (fst c) (snd c)) chain ->
  fold_left (fun h c => recordChange_history (fst c) true (snd c) h) chain
            (overwrite_top h (mkEntry (fst c) (snd c)))
  = overwrite_top h (mkEntry (fst (List.last chain c)) (snd (List.last chain c))).
Proof.
  intros Htop Hlen. revert c. induction chain as [|c' chain IH]; intros c Hok; [done|].
  destruct Hok as (Hgap & Hmerge & Hok). cbn [fold_left].
  rewrite (coalesce_step _ (mkEntry (fst c) (snd c))); [|..|done|done].
  - rewrite drop_redo_overwrite_top, overwrite_top_again by done.
    rewrite IH by done. by rewrite last_cons.
  - destruct Htop as [H0 Htop']. unfold overwrite_top. cbn [stack offset].
    apply at_index_set_index. lia.
Qed.

Lemma history_type_changes (chain : list (Rec * Z)) (ed : Editor) :
  history (type_changes chain ed)
  = fold_left (fun h c => recordChange_history (fst c) true (snd c) h) chain (history ed).
Proof.
  revert ed. induction chain as [|c chain IH]; intros ed; [done|].
  unfold type_changes in *. cbn [fold_left]. by rewrite IH, history_handleChange.
Qed.

(** C10: a chain of native changes, each less than [HISTORY_TIME_GAP]
    after the one before it and each passing the word-merge test against
    the one before it, replaces the entry under the cursor by its last
    change: whatever its length and its total duration, the history is the
    one the first block of [recordChange] leaves, with that one entry
    overwritten, and the stack has not grown. *)
Theorem coalescing_chain (ed : Editor) (last : Entry) (c : Rec * Z) (rest : list (Rec * Z)) :
  at_index (stack (history ed)) (offset (history ed)) = Some last ->
  chain_ok last (c :: rest) ->
  let final := List.last rest c in
  let ed' := type_changes (c :: rest) ed in
  history ed' = overwrite_top (drop_redo (history ed)) (mkEntry (fst final) (snd final))
  /\ at_index (stack (history ed')) (offset (history ed'))
     = Some (mkEntry (fst final) (snd final))
  /\ (length (stack (history ed')) <= length (stack (history ed)))%nat.
Proof.
  intros Hlast (Hgap & Hmerge & Hok) final ed'.
  pose proof (at_index_Some _ _ _ Hlast) as Hoff.
  destruct (drop_redo_top _ Hoff) as (Htop & Hlen & _).
  assert (history ed' = overwrite_top (drop_redo (history ed))
                          (mkEntry (fst final) (snd final))) as Hh.
  { unfold ed'. rewrite history_type_changes. cbn [fold_left].
    rewrite (coalesce_step _ last) by done. by apply coalesce_chain. }
  split; [done|]. rewrite Hh. unfold overwrite_top. cbn [stack offset]. split.
  - destruct Htop as [H0 Htop]. apply at_index_set_index. lia.
  - rewrite length_set_index. apply drop_redo_length.
Qed.

Lemma coalescing_chain_witness :
  let ed := onMount 0 (create (mkRec (lit " f") 2 2)) in
  let chain := [(mkRec (lit " fo") 3 3, 2999); (mkRec (lit " foo") 4 4, 5998)] in
  stack (history (type_changes chain ed)) = [mkEntry (mkRec (lit " foo") 4 4) 5998].
Proof.
  intros ed chain.
  destruct (coalescing_chain ed (mkEntry (mkRec (lit " f") 2 2) 0)
              (mkRec (lit " fo") 3 3, 2999) [(mkRec (lit " foo") 4 4, 5998)]) as (Hh & _).
  - reflexivity.
  - simpl. unfold HISTORY_TIME_GAP. repeat split; try lia; reflexivity.
  - unfold chain. rewrite Hh. reflexivity.
Defined.

(** ** The word-merge test *)

Lemma str_eqb_nil (s : jsstring) : str_eqb s [] = true <-> s = [].
Proof. destruct s; simpl; split; congruence. Qed.

(** The regular expression of [recordChange] finds a word only behind a
    character that is not a letter or a digit: the line is [pre ++ c :: w]
    with [c] outside the class and [w] a non-empty run of the class. A
    word that starts its line is not found. *)
Lemma match_last_word_spec (line w : jsstring) :
  match_last_word line = Some w
  <-> exists pre c, line = pre ++ c :: w /\ is_alnum c = false
                    /\ w <> [] /\ forallb is_alnum w = true.
Proof.
  split.
  - induction line as [|x line IH]; [done|]. simpl.
    destruct (is_alnum x) eqn:Ex; simpl.
    + intros (pre & c & -> & ?)%IH. by exists (x :: pre), c.
    + destruct (str_eqb line []) eqn:En; simpl.
      * intros (pre & c & -> & ?)%IH. by exists (x :: pre), c.
      * destruct (forallb is_alnum line) eqn:Ea.
        -- intros [= ->]. exists [], x. repeat split; [done|..|done].
           intros ->. by rewrite (proj2 (str_eqb_nil [])) in En.
        -- intros (pre & c & -> & ?)%IH. by exists (x :: pre), c.
  - intros (pre & c & -> & Hc & Hw & Ha).
    induction pre as [|x pre IH]; simpl.
    + rewrite Hc, Ha. simpl.
      destruct (str_eqb w []) eqn:En; [by apply str_eqb_nil in En|done].
    + destruct (negb (is_alnum x) && negb (str_eqb (pre ++ c :: w) [])
                && forallb is_alnum (pre ++ c :: w)) eqn:E; [|done].
      apply andb_prop in E as [_ E]. rewrite forallb_app in E. simpl in E.
      rewrite Hc in E. simpl in E. by rewrite andb_false_r in E.
Qed.

Lemma match_last_word_all_alnum (line : jsstring) :
  forallb is_alnum line = true -> match_last_word line = None.
Proof.
  intros Ha. destruct (match_last_word line) as [w|] eqn:E; [|done].
  apply match_last_word_spec in E as (pre & c & -> & Hc & _).
  rewrite forallb_app in Ha. simpl in Ha. rewrite Hc in Ha. simpl in Ha.
  by rewrite andb_false_r in Ha.
Qed.

(** C2 (fails on the code): on an empty editor, typing f, o, o one
    millisecond apart with the caret behind the typed text leaves the
    mount entry and three more entries, and one [undo] takes back the last
    letter only. The word-merge test fails although each line ends in a
    run of letters that starts with the run before it: the regular
    expression wants a character outside [[a-z0-9]] before the run, and a
    word at the start of its line has none. *)
Theorem typing_foo_at_line_start :
  let ed0 := onMount 0 (create (mkRec [] 0 0)) in
  let ed := type_changes [(mkRec (lit "f") 1 1, 1); (mkRec (lit "fo") 2 2, 2);
                          (mkRec (lit "foo") 3 3, 3)] ed0 in
  length (stack (history ed)) = 4%nat
  /\ value (textarea ed) = lit "foo"
  /\ value (textarea (undoEdit ed)) = lit "fo"
  /\ word_merge (mkRec (lit "f") 1 1) (mkRec (lit "fo") 2 2) = false
  /\ word_merge (mkRec (lit "fo") 2 2) (mkRec (lit "foo") 3 3) = false.
Proof. cbv zeta. split; [|split; [|split; [|split]]]; vm_compute; reflexivity. Qed.

(** The same word typed behind a space coalesces: the mount entry and one
    entry holding the whole word. *)
Lemma typing_foo_behind_space :
  let ed0 := onMount 0 (create (mkRec (lit " ") 1 1)) in
  let ed := type_changes [(mkRec (lit " f") 2 2, 1); (mkRec (lit " fo") 3 3, 2);
                          (mkRec (lit " foo") 4 4, 3)] ed0 in
  stack (history ed) = [mkEntry (mkRec (lit " ") 1 1) 0; mkEntry (mkRec (lit " foo") 4 4) 3]
  /\ value (textarea (undoEdit ed)) = lit " ".
Proof. cbv zeta. split; vm_compute; reflexivity. Qed.

(** ** Records of the structural edits *)

(** C3 (fails on the code): with two-space indentation, Shift+Tab on the
    line [  ab] with the caret between the two spaces records the value
    [ab] with [selectionStart = 1] and [selectionEnd = -1]. The line under
    the caret loses its indentation, but the start is moved only when the
    text before the caret starts with the tab character, while the end is
    moved by all the characters removed. *)
Theorem unindent_caret_inside_indentation :
  let props := mkProps true 2 false in
  let surface := mkRec (lit "  ab") 1 1 in
  let ed := fst (handleKeyDown (mkPlatform false false) props (key_of "Tab" true) 1
                               (onMount 0 (create surface))) in
  rec_ok surface
  /\ unindent props surface = Some (mkRec (lit "ab") 1 (-1))
  /\ textarea ed = mkRec (lit "ab") 1 (-1)
  /\ at_index (stack (history ed)) 1 = Some (mkEntry (mkRec (lit "ab") 1 (-1)) 1)
  /\ ~ rec_ok (textarea ed).
Proof.
  cbv zeta. split; [|split; [|split; [|split]]]; try (vm_compute; reflexivity).
  - unfold rec_ok. simpl. unfold len. simpl. lia.
  - intros [[_ H] _]. vm_compute in H. by apply H.
Qed.

(** C6, as the code has it: without [insertSpaces] the tab character is
    the TAB character repeated [tabSize] times, so its length is
    [tabSize], and it is one TAB exactly when [tabSize] is 1. *)
Theorem tabCharacter_tabs (props : Props) :
  insertSpaces props = false ->
  tabCharacter props = replicate (tabSize props) tab
  /\ length (tabCharacter props) = tabSize props
  /\ (tabCharacter props = [tab] <-> tabSize props = 1%nat).
Proof.
  intros E. unfold tabCharacter, repeat_char. rewrite E.
  split; [done|]. split; [apply length_replicate|]. split.
  - intros H. apply (f_equal length) in H. by rewrite length_replicate in H.
  - by intros ->.
Qed.

Lemma tabCharacter_tabs_witness :
  tabCharacter (mkProps false 4 true) = [tab; tab; tab; tab].
Proof.
  destruct (tabCharacter_tabs (mkProps false 4 true)) as (E & _); [reflexivity|].
  rewrite E. reflexivity.
Defined.

(** C6 as stated fails: with [tabSize = 2] and [insertSpaces = false] the
    tab character is two TABs, not one. *)
Lemma tabCharacter_single_tab_counterexample :
  let props := mkProps false 2 false in
  (1 <= tabSize props)%nat /\ insertSpaces props = false
  /\ tabCharacter props = [tab; tab] /\ tabCharacter props <> [tab].
Proof. cbv zeta. repeat split; [simpl; lia|discriminate]. Qed.

(** C7: on [ab\ncd] with two-space indentation and a selection that
    starts in the first line and ends in the second, Tab gives
    [  ab\n  cd] and Shift+Tab on the result gives back the value and the
    selection it started from. *)
Theorem indent_unindent_round_trip (platform : Platform) (t0 t1 t2 a b : Z) :
  0 <= a <= 2 -> 3 <= b <= 5 ->
  let props := mkProps true 2 false in
  let v := lit "ab" ++ newline :: lit "cd" in
  let ed0 := onMount t0 (create (mkRec v a b)) in
  let ed1 := fst (handleKeyDown platform props (key_of "Tab" false) t1 ed0) in
  let ed2 := fst (handleKeyDown platform props (key_of "Tab" true) t2 ed1) in
  value (textarea ed1) = lit "  ab" ++ newline :: lit "  cd"
  /\ textarea ed2 = mkRec v a b.
Proof.
  intros Ha Hb.
  assert (a = 0 \/ a = 1 \/ a = 2) as [->|[->| ->]] by lia;
    (assert (b = 3 \/ b = 4 \/ b = 5) as [->|[->| ->]] by lia);
    cbv zeta; split; vm_compute; reflexivity.
Qed.

Lemma indent_unindent_round_trip_witness :
  let v := lit "ab" ++ newline :: lit "cd" in
  let props := mkProps true 2 false in
  indent props (mkRec v 0 5) = mkRec (lit "  ab" ++ newline :: lit "  cd") 0 9
  /\ textarea (fst (handleKeyDown (mkPlatform false true) props (key_of "Tab" true) 2
                (fst (handleKeyDown (mkPlatform false true) props (key_of "Tab" false) 1
                   (onMount 0 (create (mkRec v 0 5)))))))
     = mkRec v 0 5.
Proof.
  split; [reflexivity|].
  apply (indent_unindent_round_trip (mkPlatform false true) 0 1 2 0 5); lia.
Defined.

(** ** Pairs *)

Lemma str_eqb_eq (a b : jsstring) : str_eqb a b = true -> a = b.
Proof.
  revert b. induction a as [|x a IH]; intros [|y b]; simpl; try done.
  intros [Hx Hab]%andb_prop. apply Ascii.eqb_eq in Hx. f_equal; [done|by apply IH].
Qed.

Lemma substring_prefix (v : jsstring) (s : Z) :
  0 <= s <= len v -> substring v 0 s = take (Z.to_nat s) v.
Proof.
  unfold len, substring, clamp. intros Hs.
  rewrite (Z.min_l 0), (Z.max_l 0 0), (Z.min_l s), (Z.max_r 0 s), (Z.min_l 0 s),
    (Z.max_r 0 s), Z.sub_0_r by lia.
  done.
Qed.

Lemma substring_from_suffix (v : jsstring) (s : Z) :
  0 <= s <= len v -> substring_from v s = drop (Z.to_nat s) v.
Proof.
  unfold len, substring_from, substring, clamp. intros Hs.
  rewrite (Z.min_l s), (Z.max_r 0 s), (Z.min_l (Z.of_nat (length v))), (Z.max_r 0),
    (Z.min_l s), (Z.max_r s) by lia.
  apply take_ge. rewrite length_drop. lia.
Qed.

(** C8: one of the six pair keys on an empty selection splices the key
    and its closing character at the caret, leaves the caret between the
    two, and suppresses the default action. *)
Theorem insert_pair_at_caret (platform : Platform) (props : Props) (e : KeyboardEvent)
    (now : Z) (ed : Editor) (v : jsstring) (s : Z) :
  is_pair_key (key e) = true ->
  textarea ed = mkRec v s s ->
  0 <= s <= len v ->
  exists close,
    PAIRS (key e) = Some (key e, close)
    /\ length (key e) = 1%nat /\ length close = 1%nat
    /\ let record := mkRec (take (Z.to_nat s) v ++ key e ++ close ++ drop (Z.to_nat s) v)
                           (s + 1) (s + 1) in
       handleKeyDown platform props e now ed
       = (applyEdits record now (dispatch (KeyDown e) ed), true)
       /\ textarea (fst (handleKeyDown platform props e now ed)) = record.
Proof.
  intros Hkey Hta Hs. destruct e as [k c m sh al]. cbn [key] in *.
  assert (forall close, PAIRS k = Some (k, close) ->
            str_eqb k (lit "Escape") = false -> str_eqb k (lit "Tab") = false ->
            str_eqb k (lit "Backspace") = false -> str_eqb k (lit "Enter") = false ->
            handleKeyDown platform props (mkKey k c m sh al) now ed
            = (applyEdits (mkRec (take (Z.to_nat s) v ++ k ++ close ++ drop (Z.to_nat s) v)
                                 (s + 1) (s + 1))
                          now (dispatch (KeyDown (mkKey k c m sh al)) ed), true))
    as Hrun.
  { intros close Hp E1 E2 E3 E4. unfold handleKeyDown. cbn [key].
    rewrite E1, E2, E3, E4, Hkey, Hp. cbn [andb textarea dispatch].
    rewrite Hta. cbn [selectionStart selectionEnd]. rewrite Z.eqb_refl. cbn [negb].
    unfold insert_pair. cbn [value selectionStart selectionEnd fst snd].
    by rewrite substring_prefix, substring_from_suffix by done. }
  unfold is_pair_key in Hkey. cbn [existsb] in Hkey.
  repeat (apply orb_prop in Hkey as [Hkey|Hkey]); try discriminate;
    apply str_eqb_eq in Hkey; subst k;
    eexists; (split; [reflexivity|]); (split; [reflexivity|]); (split; [reflexivity|]);
    cbv zeta; rewrite (Hrun _ eq_refl) by reflexivity; done.
Qed.

Lemma insert_pair_at_caret_witness :
  textarea (fst (handleKeyDown (mkPlatform false false) (mkProps true 2 false)
                   (key_of "'" false) 1 (onMount 0 (create (mkRec (lit "x") 1 1)))))
  = mkRec (lit "x''") 2 2.
Proof.
  destruct (insert_pair_at_caret (mkPlatform false false) (mkProps true 2 false)
              (key_of "'" false) 1 (onMount 0 (create (mkRec (lit "x") 1 1))) (lit "x") 1)
    as (close & Hp & _ & _ & _ & Hta).
  - reflexivity.
  - reflexivity.
  - unfold len. simpl. lia.
  - rewrite Hta. injection Hp as <-. reflexivity.
Defined.

(** ** The other structural edits keep the record invariant *)

Lemma len_nonneg (s : jsstring) : 0 <= len s.
Proof. unfold len. lia. Qed.

Lemma len_app (a b : jsstring) : len (a ++ b) = len a + len b.
Proof. unfold len. rewrite length_app. lia. Qed.

Lemma len_substring (v : jsstring) (a b : Z) :
  0 <= a <= b -> b <= len v -> len (substring v a b) = b - a.
Proof.
  unfold len, substring, clamp. intros Ha Hb.
  rewrite (Z.min_l a), (Z.max_r 0 a), (Z.min_l b), (Z.max_r 0 b), (Z.min_l a b),
    (Z.max_r a b) by lia.
  rewrite length_take, length_drop. lia.
Qed.

Lemma len_substring_from (v : jsstring) (a : Z) :
  0 <= a <= len v -> len (substring_from v a) = len v - a.
Proof. intros Ha. unfold substring_from. fold (len v). rewrite len_substring; lia. Qed.

Lemma startsWith_length (s p : jsstring) :
  startsWith s p = true -> (length p <= length s)%nat.
Proof.
  revert s. induction p as [|c p IH]; intros [|x s]; simpl; try done; [lia|].
  intros [_ H]%andb_prop. apply IH in H. lia.
Qed.

Lemma endsWith_length (s p : jsstring) : endsWith s p = true -> len p <= len s.
Proof.
  unfold endsWith, len. intros H%startsWith_length. rewrite !length_rev in H. lia.
Qed.

Lemma PAIRS_lengths (k : jsstring) (chars : jsstring * jsstring) :
  PAIRS k = Some chars -> len (fst chars) = 1 /\ len (snd chars) = 1.
Proof. unfold PAIRS. repeat case_match; intros [= <-]; done. Qed.

Lemma insert_tab_ok (props : Props) (t : Rec) : rec_ok t -> rec_ok (insert_tab props t).
Proof.
  intros [Hs He]. unfold rec_ok, insert_tab. simpl.
  rewrite !len_app, len_substring_from, len_substring by lia.
  pose proof (len_nonneg (tabCharacter props)). lia.
Qed.

Lemma delete_tab_ok (props : Props) (t : Rec) :
  rec_ok t ->
  endsWith (substring (value t) 0 (selectionStart t)) (tabCharacter props) = true ->
  rec_ok (delete_tab props t).
Proof.
  intros [Hs He] Hends%endsWith_length. rewrite len_substring in Hends by lia.
  unfold rec_ok, delete_tab. simpl.
  pose proof (len_nonneg (tabCharacter props)).
  rewrite !len_app, len_substring_from, len_substring by lia. lia.
Qed.

Lemma auto_indent_ok (t : Rec) (ws : jsstring) : rec_ok t -> rec_ok (auto_indent t ws).
Proof.
  intros [Hs He]. unfold rec_ok, auto_indent. cbn [value selectionStart selectionEnd].
  rewrite !len_app, len_substring_from, len_substring by lia.
  pose proof (len_nonneg (newline :: ws)). lia.
Qed.

Lemma wrap_selection_ok (t : Rec) (k : jsstring) (chars : jsstring * jsstring) :
  PAIRS k = Some chars -> rec_ok t -> rec_ok (wrap_selection t chars).
Proof.
  intros [Ho Hc]%PAIRS_lengths [Hs He]. unfold rec_ok, wrap_selection. simpl.
  rewrite !len_app, len_substring_from, !len_substring by lia. lia.
Qed.

Lemma insert_pair_ok (t : Rec) (k : jsstring) (chars : jsstring * jsstring) :
  PAIRS k = Some chars -> rec_ok t -> rec_ok (insert_pair t chars).
Proof.
  intros [Ho Hc]%PAIRS_lengths [Hs He]. unfold rec_ok, insert_pair. simpl.
  rewrite !len_app, len_substring_from, !len_substring by lia. lia.
Qed.

Lemma split_lines_nonempty (s : jsstring) : split_lines s <> [].
Proof. destruct s as [|c s]; simpl; [done|]. by repeat case_match. Qed.

Lemma join_split_lines (s : jsstring) : join_lines (split_lines s) = s.
Proof.
  induction s as [|c s IH]; [done|]. simpl.
  pose proof (split_lines_nonempty s) as Hne.
  destruct (Ascii.eqb_spec c newline) as [->|_].
  - simpl. destruct (split_lines s); [done|]. by rewrite IH.
  - destruct (split_lines s) as [|line lines]; [done|].
    rewrite <- IH. by destruct lines.
Qed.

Lemma length_split_lines_app (a b : jsstring) :
  (length (split_lines (a ++ b)) + 1 = length (split_lines a) + length (split_lines b))%nat.
Proof.
  induction a as [|c a IH]; simpl; [lia|].
  pose proof (split_lines_nonempty a) as Ha.
  pose proof (split_lines_nonempty (a ++ b)) as Hab.
  destruct (Ascii.eqb c newline); simpl; [lia|].
  destruct (split_lines a); [done|]. destruct (split_lines (a ++ b)); [done|].
  simpl in *. lia.
Qed.

Lemma length_split_lines_pos (s : jsstring) : (1 <= length (split_lines s))%nat.
Proof. pose proof (split_lines_nonempty s). destruct (split_lines s); [done|simpl; lia]. Qed.

(** The line numbers of two positions [s <= e] of [v] are ordered and
    are line numbers of [v]. *)
Lemma getLines_order (v : jsstring) (s e : Z) :
  0 <= s <= e -> e <= len v ->
  (1 <= length (getLines v s) <= length (getLines v e))%nat
  /\ (length (getLines v e) <= length (split_lines v))%nat.
Proof.
  intros Hs He. unfold getLines. rewrite !substring_prefix by lia.
  pose proof (length_split_lines_pos (take (Z.to_nat s) v)).
  pose proof (length_split_lines_pos (drop (Z.to_nat e) v)).
  pose proof (length_split_lines_pos (drop (Z.to_nat s) (take (Z.to_nat e) v))).
  pose proof (length_split_lines_app (take (Z.to_nat e) v) (drop (Z.to_nat e) v)) as Hv.
  rewrite take_drop in Hv.
  pose proof (length_split_lines_app (take (Z.to_nat s) (take (Z.to_nat e) v))
                (drop (Z.to_nat s) (take (Z.to_nat e) v))) as Hpre.
  rewrite take_drop, take_take, Nat.min_l in Hpre by lia. lia.
Qed.

Lemma indented_lines_closed (a b i : Z) (n : nat) :
  indented_lines a b i n = Z.max 0 (Z.min b (i + Z.of_nat n - 1) - Z.max a i + 1).
Proof.
  revert i. induction n as [|n IH]; intros i; cbn [indented_lines]; [lia|].
  rewrite IH.
  destruct (Z.geb_spec i a); destruct (Z.leb_spec i b); simpl; lia.
Qed.

Lemma len_join_cons (x : jsstring) (l : list jsstring) :
  len (join_lines (x :: l))
  = len x + match l with [] => 0 | _ :: _ => 1 + len (join_lines l) end.
Proof.
  destruct l as [|y l]; [simpl; lia|].
  change (join_lines (x :: y :: l)) with (x ++ [newline] ++ join_lines (y :: l)).
  by rewrite !len_app.
Qed.

Lemma len_join_indented (T : jsstring) (a b : Z) (lines : list jsstring) (i : Z) :
  len (join_lines (mapi_from (fun line j =>
                                if (j >=? a) && (j <=? b) then T ++ line else line)
                             i lines))
  = len (join_lines lines) + len T * indented_lines a b i (length lines).
Proof.
  revert i. induction lines as [|x rest IH]; intros i.
  - simpl. lia.
  - cbn [mapi_from length indented_lines].
    rewrite Z.mul_add_distr_l, !len_join_cons.
    specialize (IH (i + 1)). destruct rest as [|y rest]; cbn [mapi_from] in *.
    + destruct ((i >=? a) && (i <=? b));
        rewrite ?len_app, ?Z.mul_1_r, ?Z.mul_0_r; simpl; lia.
    + rewrite IH.
      destruct ((i >=? a) && (i <=? b));
        rewrite ?len_app, ?Z.mul_1_r, ?Z.mul_0_r; lia.
Qed.

(** Tab over a selection keeps the record invariant. *)
Lemma indent_ok (props : Props) (t : Rec) : rec_ok t -> rec_ok (indent props t).
Proof.
  intros [Hs He]. destruct (getLines_order (value t) _ _ Hs He) as [[H1 Hse] Hev].
  pose proof (len_nonneg (tabCharacter props)) as HT.
  unfold rec_ok, indent, mapi. cbn [value selectionStart selectionEnd].
  rewrite len_join_indented, join_split_lines, indented_lines_closed.
  set (k := Z.of_nat (length (getLines (value t) (selectionEnd t))) - 1
            - (Z.of_nat (length (getLines (value t) (selectionStart t))) - 1) + 1).
  assert (1 <= k) as Hk by lia.
  assert (len (tabCharacter props) <= len (tabCharacter props) * k) as Hmul by nia.
  replace (Z.max 0 _) with k by lia.
  destruct (test_non_space _); lia.
Qed.

(** ** The two copies of [handleKeyDown] *)

(** X21: in [Editor.svelte] a pair key on an empty selection is not
    intercepted: nothing is recorded, the surface is untouched and the
    default action is kept. *)
Lemma EditorSvelte_pair_key_at_caret (platform : Platform) (props : Props)
    (e : KeyboardEvent) (now : Z) (ed : Editor) :
  is_pair_key (key e) = true ->
  selectionStart (textarea ed) = selectionEnd (textarea ed) ->
  EditorSvelte.handleKeyDown platform props e now ed = (dispatch (KeyDown e) ed, false).
Proof.
  intros Hkey Hsel. destruct e as [k c m sh al]. cbn [key] in *.
  unfold is_pair_key in Hkey. cbn [existsb] in Hkey.
  repeat (apply orb_prop in Hkey as [Hkey|Hkey]); try discriminate;
    apply str_eqb_eq in Hkey; subst k;
    unfold EditorSvelte.handleKeyDown; cbn -[dispatch]; cbn [textarea dispatch];
    by rewrite Hsel, Z.eqb_refl.
Qed.


(** ** The word-merge test, as the code decides it *)

(** X6: the word-merge test of [recordChange] succeeds exactly when both
    current lines (the text between the last newline before the selection
    start and the selection start) end in a run of letters and digits
    that stands behind a character outside the class, and the incoming
    run starts with the previous one. *)
Lemma word_merge_spec (last record : Rec) :
  word_merge last record = true
  <-> exists pre c w pre' c' w',
        pop (getLines (value last) (selectionStart last)) = pre ++ c :: w
        /\ pop (getLines (value record) (selectionStart record)) = pre' ++ c' :: w'
        /\ is_alnum c = false /\ is_alnum c' = false
        /\ w <> [] /\ w' <> []
        /\ forallb is_alnum w = true /\ forallb is_alnum w' = true
        /\ startsWith w' w = true.
Proof.
  unfold word_merge.
  set (prev := pop (getLines (value last) (selectionStart last))).
  set (cur := pop (getLines (value record) (selectionStart record))).
  clearbody prev cur. split.
  - destruct (match_last_word prev) as [w|] eqn:Ep; [|discriminate].
    destruct (match_last_word cur) as [w'|] eqn:Ec; [|discriminate].
    apply match_last_word_spec in Ep as (pre & c & Ep & Hc & Hw & Ha).
    apply match_last_word_spec in Ec as (pre' & c' & Ec & Hc' & Hw' & Ha').
    intros Hs. exists pre, c, w, pre', c', w'. repeat split; assumption.
  - intros (pre & c & w & pre' & c' & w' & Ep & Ec & Hc & Hc' & Hw & Hw' & Ha & Ha' & Hs).
    assert (match_last_word prev = Some w) as ->.
    { apply match_last_word_spec. exists pre, c. repeat split; assumption. }
    assert (match_last_word cur = Some w') as ->.
    { apply match_last_word_spec. exists pre', c'. repeat split; assumption. }
    exact Hs.
Qed.

(** A redo branch that exists before the new edit is gone after it. *)
Lemma redo_branch_dropped_example :
  let a := mkRec (lit "a") 1 1 in
  let b := mkRec (lit "ab") 2 2 in
  let c := mkRec (lit "ac") 2 2 in
  let ed := undoEdit (applyEdits b 2 (applyEdits a 1 (onMount 0 (create (mkRec [] 0 0))))) in
  textarea (redoEdit ed) = b
  /\ redoEdit (applyEdits c 3 ed) = applyEdits c 3 ed
  /\ map entry_rec (stack (history (applyEdits c 3 ed))) = [mkRec [] 0 0; a; c].
Proof. cbv zeta. split; [|split]; vm_compute; reflexivity. Qed.

(** ** Further properties of the edit history *)

(** X1: once [onMount] has recorded the first entry, every run of the
    component keeps the offset on an entry of the stack (the history is
    never empty again) and the stack within [HISTORY_LIMIT + 1] entries. *)
Theorem mounted_history_bounds (platform : Platform) (props : Props) (surface : Rec) (t0 : Z)
    (ops : list Op) :
  let h := history (run platform props ops (onMount t0 (create surface))) in
  0 <= offset h < Z.of_nat (length (stack h))
  /\ Z.of_nat (length (stack h)) <= HISTORY_LIMIT + 1.
Proof.
  cbv zeta. destruct (onMount_mounted t0 surface) as [Hi0 Ho0].
  destruct (run_mounted platform props ops _ Hi0 Ho0) as [[[E Eo]|Hinv] H0].
  - lia.
  - done.
Qed.

(** X2: a record that does not coalesce keeps the entries up to the
    cursor, drops the redo branch above it, drops from the front what
    exceeds [HISTORY_LIMIT] among the kept entries, appends the new entry
    and leaves the cursor on it. *)
Theorem record_keeps_newest (record : Rec) (now : Z) (h : History) :
  0 <= offset h < Z.of_nat (length (stack h)) ->
  let kept := take (Z.to_nat (offset h + 1)) (stack h) in
  let extras := Z.to_nat (offset h + 1 - HISTORY_LIMIT) in
  recordChange_history record false now h
  = mkHistory (drop extras kept ++ [mkEntry record now])
              (Z.of_nat (length (drop extras kept))).
Proof.
  intros Hoff kept extras. unfold recordChange_history, push, drop_redo, HISTORY_LIMIT in *.
  destruct (Z.eqb_spec (Z.of_nat (length (stack h))) 0) as [|_]; [lia|].
  destruct (Z.gtb_spec (offset h) (-1)) as [_|]; [|lia]. cbn [negb andb].
  rewrite slice_prefix, length_take by lia. fold kept.
  assert (length kept = Z.to_nat (offset h + 1)) as Hk
    by (unfold kept; rewrite length_take; lia).
  rewrite Nat.min_l by lia.
  destruct (Z.gtb_spec (Z.of_nat (Z.to_nat (offset h + 1))) 100) as [Hbig|Hsmall];
    cbn [stack offset].
  - rewrite slice_take_drop by lia.
    replace (Z.to_nat (Z.of_nat (Z.to_nat (offset h + 1)) - 100)) with extras by lia.
    replace (Z.to_nat (Z.of_nat (Z.to_nat (offset h + 1))
                       - (Z.of_nat (Z.to_nat (offset h + 1)) - 100))) with 100%nat by lia.
    rewrite take_drop_commute.
    replace (extras + 100)%nat with (Z.to_nat (offset h + 1)) by lia. fold kept.
    f_equal. rewrite length_drop, Hk. lia.
  - replace extras with 0%nat by lia. rewrite drop_0. f_equal. lia.
Qed.

Lemma record_keeps_newest_witness :
  let e := fun n => mkEntry (mkRec (lit "x") n n) n in
  recordChange_history (mkRec (lit "y") 1 1) false 9 (mkHistory [e 0; e 1; e 2] 1)
  = mkHistory [e 0; e 1; mkEntry (mkRec (lit "y") 1 1) 9] 2.
Proof.
  intros e.
  rewrite (record_keeps_newest (mkRec (lit "y") 1 1) 9 (mkHistory [e 0; e 1; e 2] 1))
    by (simpl; lia).
  reflexivity.
Defined.



(** X4: while the surface shows the entry under the cursor, [undo] and
    [redo] are inverse to each other wherever they act: [redo] after an
    [undo] that had an older entry to go to, and [undo] after a [redo]
    that had a newer one, give back the history and the surface. *)
Theorem undo_redo_adjacent (ed : Editor) :
  synced ed ->
  (1 <= offset (history ed) ->
   history (redoEdit (undoEdit ed)) = history ed
   /\ textarea (redoEdit (undoEdit ed)) = textarea ed)
  /\ (offset (history ed) + 1 < Z.of_nat (length (stack (history ed))) ->
      history (undoEdit (redoEdit ed)) = history ed
      /\ textarea (undoEdit (redoEdit ed)) = textarea ed).
Proof.
  intros Hs. pose proof Hs as (e & He%at_index_Some & _).
  destruct (undoEdit_synced ed Hs) as (Hsu & Hstu & Hou).
  destruct (redoEdit_synced ed Hs) as (Hsr & Hstr & Hor).
  destruct (redoEdit_synced _ Hsu) as (Hsru & Hstru & Horu).
  destruct (undoEdit_synced _ Hsr) as (Hsur & Hstur & Hour).
  split; intros Hact.
  - assert (history (redoEdit (undoEdit ed)) = history ed) as Hh.
    { destruct (history (redoEdit (undoEdit ed))) as [st o].
      destruct (history (undoEdit ed)) as [st1 o1]. destruct (history ed) as [st0 o0].
      simpl in *. subst. f_equal. lia. }
    split; [done|]. by apply synced_textarea.
  - assert (history (undoEdit (redoEdit ed)) = history ed) as Hh.
    { destruct (history (undoEdit (redoEdit ed))) as [st o].
      destruct (history (redoEdit ed)) as [st1 o1]. destruct (history ed) as [st0 o0].
      simpl in *. subst. f_equal. lia. }
    split; [done|]. by apply synced_textarea.
Qed.

Lemma undo_redo_adjacent_witness :
  let ed := undoEdit (applyEdits (mkRec (lit "abc") 3 3) 2
                        (applyEdits (mkRec (lit "ab") 2 2) 1
                           (onMount 0 (create (mkRec (lit "a") 1 1))))) in
  textarea (redoEdit (undoEdit ed)) = textarea ed
  /\ textarea (undoEdit (redoEdit ed)) = textarea ed.
Proof.
  intros ed.
  assert (synced ed) as Hs.
  { exists (mkEntry (mkRec (lit "ab") 2 2) 1). split; reflexivity. }
  destruct (undo_redo_adjacent ed Hs) as [Hu Hr]. split.
  - apply Hu. simpl. lia.
  - apply Hr. simpl. lia.
Defined.



(** X7: a native change that comes [HISTORY_TIME_GAP] milliseconds or
    more after the entry under the cursor, or that fails the word-merge
    test against it, never coalesces: it is recorded as a structural edit
    is, as a new entry above the cursor. *)
Theorem change_without_merge_pushes (h : History) (last : Entry) (record : Rec) (now : Z) :
  at_index (stack h) (offset h) = Some last ->
  HISTORY_TIME_GAP <= now - timestamp last \/ word_merge (entry_rec last) record = false ->
  recordChange_history record true now h = recordChange_history record false now h
  /\ at_index (stack (recordChange_history record true now h))
              (offset (recordChange_history record true now h) - 1) = Some last.
Proof.
  intros Hlast Hno. pose proof (at_index_Some _ _ _ Hlast) as Hoff.
  destruct (drop_redo_top h Hoff) as ([H0 Htop] & _ & Hsame).
  assert (recordChange_history record true now h = push record now (drop_redo h)) as Hr.
  { unfold recordChange_history. rewrite Hsame, Hlast.
    destruct Hno as [Hgap|Hw].
    - by destruct (Z.ltb_spec (now - timestamp last) HISTORY_TIME_GAP); [lia|].
    - by rewrite Hw, andb_false_r. }
  split; [done|]. rewrite Hr. unfold push. cbn [stack offset].
  rewrite at_index_app_l by lia.
  replace (offset (drop_redo h) + 1 - 1) with (offset (drop_redo h)) by lia.
  by rewrite Hsame.
Qed.

Lemma change_without_merge_pushes_witness :
  let h := history (onMount 0 (create (mkRec (lit " f") 2 2))) in
  stack (recordChange_history (mkRec (lit " fo") 3 3) true 3000 h)
  = [mkEntry (mkRec (lit " f") 2 2) 0; mkEntry (mkRec (lit " fo") 3 3) 3000].
Proof.
  intros h.
  destruct (change_without_merge_pushes h (mkEntry (mkRec (lit " f") 2 2) 0)
              (mkRec (lit " fo") 3 3) 3000) as [Hr _].
  - reflexivity.
  - left. unfold HISTORY_TIME_GAP. simpl. lia.
  - rewrite Hr. reflexivity.
Defined.

(** ** Key combinations *)

(** X12: on every platform no key event is both the undo and the redo
    combination, and with Alt held it is neither. *)
Theorem undo_redo_combinations_exclusive (platform : Platform) (e : KeyboardEvent) :
  is_undo platform e && is_redo platform e = false
  /\ (altKey e = true -> is_undo platform e = false /\ is_redo platform e = false).
Proof.
  unfold is_undo, is_redo. split.
  - destruct (isMacLike platform), (isWindows platform), (ctrlKey e), (metaKey e),
      (shiftKey e), (altKey e); cbn [andb negb]; rewrite ?andb_false_r; try reflexivity;
      destruct (str_eqb (key e) (lit "z")) eqn:Ez; try reflexivity;
      apply str_eqb_eq in Ez; rewrite Ez; reflexivity.
  - intros ->. cbn [negb]. by rewrite !andb_false_r.
Qed.

(** ** Lines *)

Lemma split_lines_no_newline (l : jsstring) : ~ In newline l -> split_lines l = [l].
Proof.
  induction l as [|c l IH]; [done|]. intros Hnl. simpl.
  destruct (Ascii.eqb_spec c newline) as [->|_]; [by destruct Hnl; left|].
  rewrite IH; [done|]. intros Hin. apply Hnl. by right.
Qed.

Lemma split_lines_app_newline (l rest : jsstring) :
  ~ In newline l -> split_lines (l ++ newline :: rest) = l :: split_lines rest.
Proof.
  induction l as [|c l IH]; intros Hnl.
  - reflexivity.
  - simpl. destruct (Ascii.eqb_spec c newline) as [->|_]; [by destruct Hnl; left|].
    rewrite IH; [done|]. intros Hin. apply Hnl. by right.
Qed.

Lemma split_lines_free (s : jsstring) : Forall (fun l => ~ In newline l) (split_lines s).
Proof.
  induction s as [|c s IH]; simpl.
  - constructor; [by intros []|constructor].
  - destruct (Ascii.eqb_spec c newline) as [->|Hc].
    + constructor; [by intros []|done].
    + destruct (split_lines s) as [|line lines]; [repeat constructor; by intros [|[]]|].
      inversion IH as [|? ? Hline Hlines]; subst. constructor; [|done].
      intros [->|Hin]; [done|by apply Hline].
Qed.

(** X8: splitting a string on newlines and joining the lines gives the
    string back; the lines hold no newline; and joining a non-empty list
    of lines that hold no newline and splitting again gives the lines
    back. *)
Theorem split_join_round_trip :
  (forall s : jsstring, join_lines (split_lines s) = s)
  /\ (forall s : jsstring, split_lines s <> []
                           /\ Forall (fun l => ~ In newline l) (split_lines s))
  /\ (forall lines : list jsstring,
        lines <> [] -> Forall (fun l => ~ In newline l) lines ->
        split_lines (join_lines lines) = lines).
Proof.
  split; [apply join_split_lines|]. split.
  - intros s. split; [apply split_lines_nonempty|apply split_lines_free].
  - intros lines Hne Hfree. induction Hfree as [|l lines Hl Hfree IH]; [done|].
    destruct lines as [|l' lines].
    + simpl. by apply split_lines_no_newline.
    + change (join_lines (l :: l' :: lines)) with (l ++ newline :: join_lines (l' :: lines)).
      rewrite split_lines_app_newline by done. f_equal. by apply IH.
Qed.

Lemma split_join_round_trip_witness :
  split_lines (join_lines [lit "ab"; []; lit "cd"]) = [lit "ab"; []; lit "cd"].
Proof.
  apply (proj2 (proj2 split_join_round_trip)); [discriminate|].
  repeat constructor; intros Hin; simpl in Hin; intuition discriminate.
Defined.

(** ** What a key event does and does not do *)

(** X10: when [ignoreTabKey] is set or tab capture has been switched
    off, the Tab key is not intercepted: nothing is recorded, the surface
    is untouched and the default action (moving the focus) is kept. *)
Theorem tab_not_captured (platform : Platform) (props : Props) (e : KeyboardEvent) (now : Z)
    (ed : Editor) :
  key e = lit "Tab" ->
  ignoreTabKey props = true \/ capture ed = false ->
  handleKeyDown platform props e now ed = (dispatch (KeyDown e) ed, false).
Proof.
  intros Hk Hoff. destruct e as [k c m sh al]. cbn [key] in Hk. subst k.
  unfold handleKeyDown, is_undo, is_redo. cbn [key].
  change (str_eqb (lit "Tab") (lit "Escape")) with false.
  change (str_eqb (lit "Tab") (lit "Tab")) with true.
  change (str_eqb (lit "Tab") (lit "Backspace")) with false.
  change (str_eqb (lit "Tab") (lit "Enter")) with false.
  change (is_pair_key (lit "Tab")) with false.
  change (str_eqb (lit "Tab") (lit "z")) with false.
  change (str_eqb (lit "Tab") (lit "y")) with false.
  change (str_eqb (lit "Tab") (lit "m")) with false.
  cbn [capture dispatch andb]. rewrite !andb_false_r.
  assert (negb (ignoreTabKey props) && capture ed = false) as ->
    by (destruct Hoff as [-> | ->]; [done|apply andb_false_r]).
  by destruct (isMacLike platform), (isWindows platform).
Qed.

Lemma tab_not_captured_witness :
  let ed := onMount 0 (create (mkRec (lit "x") 1 1)) in
  fst (handleKeyDown (mkPlatform false false) (mkProps true 2 true) (key_of "Tab" false) 1 ed)
  = dispatch (KeyDown (key_of "Tab" false)) ed.
Proof.
  intros ed.
  rewrite (tab_not_captured (mkPlatform false false) (mkProps true 2 true)
             (key_of "Tab" false) 1 ed); [reflexivity|reflexivity|].
  left. reflexivity.
Defined.

(** X14: a key event whose default action is kept has changed neither
    the history nor the surface nor the capture flag: the component never
    edits the text and lets the browser edit it as well. *)
Theorem default_kept_nothing_changed (platform : Platform) (props : Props)
    (e : KeyboardEvent) (now : Z) (ed : Editor) :
  snd (handleKeyDown platform props e now ed) = false ->
  history (fst (handleKeyDown platform props e now ed)) = history ed
  /\ textarea (fst (handleKeyDown platform props e now ed)) = textarea ed
  /\ bound_value (fst (handleKeyDown platform props e now ed)) = bound_value ed
  /\ capture (fst (handleKeyDown platform props e now ed)) = capture ed.
Proof.
  unfold handleKeyDown. repeat case_match; cbn [fst snd]; intros Hd; done.
Qed.

Lemma default_kept_nothing_changed_witness :
  let ed := onMount 0 (create (mkRec (lit "x") 1 1)) in
  history (fst (handleKeyDown (mkPlatform false false) (mkProps true 2 false)
                  (key_of "a" false) 1 ed)) = history ed.
Proof.
  intros ed.
  apply (default_kept_nothing_changed (mkPlatform false false) (mkProps true 2 false)
           (key_of "a" false) 1 ed).
  reflexivity.
Defined.

Lemma dispatched_applyEdits (record : Rec) (now : Z) (ed : Editor) :
  dispatched (applyEdits record now ed) = dispatched ed ++ [ValueChange (value record)].
Proof.
  unfold applyEdits, updateInput, dispatch, recordChange, set_history, save_selection.
  cbn [dispatched]. by case_match.
Qed.

(** X15: every key event is dispatched to the listeners first; the
    handler then dispatches nothing more, or one [value-change] that
    carries the text the surface holds when the handler returns. *)
Theorem key_event_notifications (platform : Platform) (props : Props)
    (e : KeyboardEvent) (now : Z) (ed : Editor) :
  let ed' := fst (handleKeyDown platform props e now ed) in
  dispatched ed' = dispatched ed ++ [KeyDown e]
  \/ dispatched ed' = dispatched ed ++ [KeyDown e; ValueChange (value (textarea ed'))].
Proof.
  cbv zeta. unfold handleKeyDown.
  repeat case_match; cbn [fst]; try (left; reflexivity);
    try (right; rewrite dispatched_applyEdits, textarea_applyEdits;
         cbn [dispatched dispatch]; by rewrite <- app_assoc).
  - unfold undoEdit. case_match; [right|by left].
    cbn [dispatched set_history textarea updateInput dispatch]. by rewrite <- app_assoc.
  - unfold redoEdit. case_match; [right|by left].
    cbn [dispatched set_history textarea updateInput dispatch]. by rewrite <- app_assoc.
Qed.

(** X9: every key event other than Shift+Tab, undo and redo leaves on
    the surface a record that satisfies
    [0 <= selectionStart <= selectionEnd <= length value], when the
    surface held such a record before: indenting, inserting and deleting
    a tab, auto-indenting, wrapping and inserting a pair all keep it. *)
Theorem key_edits_keep_record_invariant (platform : Platform) (props : Props)
    (e : KeyboardEvent) (now : Z) (ed : Editor) :
  rec_ok (textarea ed) ->
  str_eqb (key e) (lit "Tab") && shiftKey e = false ->
  is_undo platform e = false ->
  is_redo platform e = false ->
  rec_ok (textarea (fst (handleKeyDown platform props e now ed))).
Proof.
  intros Hok Hshift Hundo Hredo. unfold handleKeyDown.
  change (textarea (dispatch (KeyDown e) ed)) with (textarea ed).
  repeat case_match; cbn [fst]; rewrite ?textarea_applyEdits;
    repeat match goal with
           | H : _ && _ = true |- _ => apply andb_prop in H as [? ?]
           end;
    try done; try congruence.
  - rewrite andb_true_intro in Hshift by done. discriminate.
  - by apply indent_ok.
  - by apply insert_tab_ok.
  - by apply delete_tab_ok.
  - by apply auto_indent_ok.
  - by eapply wrap_selection_ok.
  - by eapply insert_pair_ok.
Qed.

Lemma key_edits_keep_record_invariant_witness :
  rec_ok (textarea (fst (handleKeyDown (mkPlatform false false) (mkProps true 2 false)
                           (key_of "Tab" false) 1
                           (onMount 0 (create (mkRec (lit "ab") 0 2)))))).
Proof.
  apply key_edits_keep_record_invariant; try reflexivity.
  unfold rec_ok, len. simpl. lia.
Defined.

(** X20: Shift+Tab when no line of the text starts with the tab
    character records nothing and leaves the surface as it is; the
    default action is suppressed all the same. *)
Theorem unindent_nothing_to_strip (platform : Platform) (props : Props)
    (e : KeyboardEvent) (now : Z) (ed : Editor) :
  key e = lit "Tab" -> shiftKey e = true ->
  ignoreTabKey props = false -> capture ed = true ->
  forallb (fun line => negb (startsWith line (tabCharacter props)))
          (split_lines (value (textarea ed))) = true ->
  handleKeyDown platform props e now ed = (dispatch (KeyDown e) ed, true).
Proof.
  intros Hk Hs Hi Hc Hnone. unfold handleKeyDown. rewrite Hk, Hs, Hi.
  change (str_eqb (lit "Tab") (lit "Escape")) with false.
  change (str_eqb (lit "Tab") (lit "Tab")) with true.
  cbn [capture dispatch textarea andb negb]. rewrite Hc.
  assert (forall a b i lines,
            forallb (fun line => negb (startsWith line (tabCharacter props))) lines = true ->
            mapi_from (fun line j =>
                         if (j >=? a) && (j <=? b) && startsWith line (tabCharacter props)
                         then substring_from line (len (tabCharacter props))
                         else line) i lines = lines) as Hmap.
  { intros a b i lines. revert i. induction lines as [|l lines IH]; intros i; [done|].
    cbn [forallb mapi_from]. intros [Hl Hrest]%andb_prop.
    apply negb_true_iff in Hl. rewrite Hl, andb_false_r, IH by done. done. }
  unfold unindent, mapi. rewrite Hmap by done. rewrite join_split_lines.
  assert (forall s, str_eqb s s = true) as Hrefl
    by (induction s as [|c s IH]; [done|]; simpl; by rewrite Ascii.eqb_refl).
  by rewrite Hrefl.
Qed.

Lemma unindent_nothing_to_strip_witness :
  let ed := onMount 0 (create (mkRec (lit " ab") 1 2)) in
  fst (handleKeyDown (mkPlatform false false) (mkProps true 2 false) (key_of "Tab" true) 1 ed)
  = dispatch (KeyDown (key_of "Tab" true)) ed.
Proof.
  intros ed.
  rewrite (unindent_nothing_to_strip (mkPlatform false false) (mkProps true 2 false)
             (key_of "Tab" true) 1 ed); reflexivity.
Defined.

(** ** Tab, Backspace, Enter and the pair keys at work *)

Lemma startsWith_app (p x : jsstring) : startsWith (p ++ x) p = true.
Proof. induction p as [|c p IH]; [by destruct x|]. simpl. by rewrite Ascii.eqb_refl. Qed.

Lemma endsWith_app (a t : jsstring) : endsWith (a ++ t) t = true.
Proof. unfold endsWith. rewrite rev_app_distr. apply startsWith_app. Qed.

Lemma substring_middle (v : jsstring) (a b : Z) :
  0 <= a <= b -> b <= len v ->
  substring v a b = take (Z.to_nat (b - a)) (drop (Z.to_nat a) v).
Proof.
  unfold len, substring, clamp. intros Ha Hb.
  by rewrite (Z.min_l a), (Z.max_r 0 a), (Z.min_l b), (Z.max_r 0 b), (Z.min_l a b),
    (Z.max_r a b) by lia.
Qed.

(** The three pieces of a text into which [t] was spliced at [s]. *)
Lemma splice_parts (v t : jsstring) (s : Z) :
  0 <= s <= len v ->
  let v' := take (Z.to_nat s) v ++ t ++ drop (Z.to_nat s) v in
  substring v' 0 s = take (Z.to_nat s) v
  /\ substring v' 0 (s + len t) = take (Z.to_nat s) v ++ t
  /\ substring_from v' (s + len t) = drop (Z.to_nat s) v.
Proof.
  intros Hs v'. unfold len in *.
  assert (length (take (Z.to_nat s) v) = Z.to_nat s) as Hlen
    by (rewrite length_take; lia).
  assert (len v' = Z.of_nat (length v) + Z.of_nat (length t)) as Hv'.
  { unfold v', len. rewrite !length_app, length_drop, Hlen. lia. }
  split; [|split].
  - rewrite substring_prefix by lia. unfold v'.
    rewrite take_app_le by lia. rewrite take_ge by lia. done.
  - rewrite substring_prefix by lia. unfold v'.
    replace (Z.to_nat (s + Z.of_nat (length t)))
      with (length (take (Z.to_nat s) v ++ t)) by (rewrite length_app; lia).
    by rewrite app_assoc, take_app_length.
  - rewrite substring_from_suffix by lia. unfold v'.
    replace (Z.to_nat (s + Z.of_nat (length t)))
      with (length (take (Z.to_nat s) v ++ t)) by (rewrite length_app; lia).
    by rewrite app_assoc, drop_app_length.
Qed.

(** X18: at a caret, with tab capture on, Tab splices the tab character
    into the text and moves the caret behind it, and Backspace right
    after it takes the tab character out again: value and caret are the
    ones before the Tab. *)
Theorem tab_then_backspace (platform : Platform) (props : Props) (et eb : KeyboardEvent)
    (t1 t2 : Z) (ed : Editor) (v : jsstring) (s : Z) :
  key et = lit "Tab" -> shiftKey et = false -> key eb = lit "Backspace" ->
  ignoreTabKey props = false -> capture ed = true ->
  textarea ed = mkRec v s s -> 0 <= s <= len v ->
  let ed1 := fst (handleKeyDown platform props et t1 ed) in
  textarea ed1
  = mkRec (take (Z.to_nat s) v ++ tabCharacter props ++ drop (Z.to_nat s) v)
          (s + len (tabCharacter props)) (s + len (tabCharacter props))
  /\ textarea (fst (handleKeyDown platform props eb t2 ed1)) = mkRec v s s.
Proof.
  intros Hkt Hst Hkb Hi Hc Hta Hs.
  destruct (splice_parts v (tabCharacter props) s Hs) as (Hp0 & Hp1 & Hp2).
  assert (fst (handleKeyDown platform props et t1 ed)
          = applyEdits (mkRec (take (Z.to_nat s) v ++ tabCharacter props
                                 ++ drop (Z.to_nat s) v)
                              (s + len (tabCharacter props)) (s + len (tabCharacter props)))
                       t1 (dispatch (KeyDown et) ed)) as H1.
  { unfold handleKeyDown. rewrite Hkt, Hst, Hi.
    change (str_eqb (lit "Tab") (lit "Escape")) with false.
    change (str_eqb (lit "Tab") (lit "Tab")) with true.
    cbn [capture dispatch textarea andb negb]. rewrite Hc, Hta.
    cbn [selectionStart selectionEnd]. rewrite Z.eqb_refl. cbn [negb fst].
    unfold insert_tab. cbn [value selectionStart selectionEnd].
    by rewrite substring_prefix, substring_from_suffix by done. }
  cbv zeta. rewrite H1. split; [done|].
  unfold handleKeyDown. rewrite Hkb.
  change (str_eqb (lit "Backspace") (lit "Escape")) with false.
  change (str_eqb (lit "Backspace") (lit "Tab")) with false.
  change (str_eqb (lit "Backspace") (lit "Backspace")) with true.
  cbn [andb]. change (textarea (dispatch ?d ?x)) with (textarea x).
  rewrite textarea_applyEdits. cbn [value selectionStart selectionEnd].
  rewrite Z.eqb_refl, Hp1, endsWith_app. cbn [negb andb fst].
  rewrite textarea_applyEdits. unfold delete_tab. cbn [value selectionStart selectionEnd].
  replace (s + len (tabCharacter props) - len (tabCharacter props)) with s by lia.
  by rewrite Hp0, Hp2, take_drop.
Qed.

Lemma tab_then_backspace_witness :
  let ed := onMount 0 (create (mkRec (lit "ab") 1 1)) in
  textarea (fst (handleKeyDown (mkPlatform false false) (mkProps true 2 false)
                   (key_of "Backspace" false) 2
                   (fst (handleKeyDown (mkPlatform false false) (mkProps true 2 false)
                           (key_of "Tab" false) 1 ed))))
  = mkRec (lit "ab") 1 1.
Proof.
  intros ed.
  apply (tab_then_backspace (mkPlatform false false) (mkProps true 2 false)
           (key_of "Tab" false) (key_of "Backspace" false) 1 2 ed (lit "ab") 1);
    try reflexivity.
  unfold len. simpl. lia.
Defined.

Lemma leading_spaces_spec (line : jsstring) :
  forallb is_space (leading_spaces line) = true
  /\ exists rest, line = leading_spaces line ++ rest
                  /\ match rest with [] => True | c :: _ => is_space c = false end.
Proof.
  induction line as [|c line (Hall & rest & Hline & Hrest)]; simpl.
  - split; [done|]. by exists [].
  - destruct (is_space c) eqn:Ec; simpl.
    + rewrite Ec, Hall. split; [done|]. exists rest. by rewrite <- Hline.
    + split; [done|]. by exists (c :: line).
Qed.

(** X16: Enter at a caret looks at the text between the last newline
    before the caret and the caret. When that text starts with white
    space, the handler inserts a newline followed by that white space
    (the longest run of white space at its start) at the caret, puts the
    caret behind it and suppresses the default action; when it does not,
    the key is left to the browser. *)
Theorem enter_keeps_indentation (platform : Platform) (props : Props) (e : KeyboardEvent)
    (now : Z) (ed : Editor) (v : jsstring) (s : Z) :
  key e = lit "Enter" ->
  textarea ed = mkRec v s s ->
  0 <= s <= len v ->
  let line := pop (split_lines (take (Z.to_nat s) v)) in
  let ws := leading_spaces line in
  (ws = [] -> handleKeyDown platform props e now ed = (dispatch (KeyDown e) ed, false))
  /\ (ws <> [] ->
      handleKeyDown platform props e now ed
      = (applyEdits (mkRec (take (Z.to_nat s) v ++ newline :: ws ++ drop (Z.to_nat s) v)
                           (s + 1 + len ws) (s + 1 + len ws))
                    now (dispatch (KeyDown e) ed), true))
  /\ forallb is_space ws = true
  /\ exists rest, line = ws ++ rest
                  /\ match rest with [] => True | c :: _ => is_space c = false end.
Proof.
  intros Hk Hta Hs line ws.
  assert (handleKeyDown platform props e now ed
          = match match_leading_spaces line with
            | Some ws => (applyEdits (auto_indent (mkRec v s s) ws) now
                                     (dispatch (KeyDown e) ed), true)
            | None => (dispatch (KeyDown e) ed, false)
            end) as Hrun.
  { unfold handleKeyDown. rewrite Hk.
    change (str_eqb (lit "Enter") (lit "Escape")) with false.
    change (str_eqb (lit "Enter") (lit "Tab")) with false.
    change (str_eqb (lit "Enter") (lit "Backspace")) with false.
    change (str_eqb (lit "Enter") (lit "Enter")) with true.
    cbn [andb]. change (textarea (dispatch ?d ?x)) with (textarea x). rewrite Hta.
    cbn [value selectionStart selectionEnd]. rewrite Z.eqb_refl.
    unfold getLines. by rewrite substring_prefix by done. }
  rewrite Hrun. unfold match_leading_spaces. fold ws.
  split; [by intros ->|]. split; [|apply leading_spaces_spec].
  intros Hne. destruct ws as [|c ws'] eqn:Ews; [done|].
  unfold auto_indent. cbn [value selectionStart selectionEnd].
  rewrite substring_prefix, substring_from_suffix by done.
  do 2 f_equal. f_equal; unfold len; simpl length; lia.
Qed.

Lemma enter_keeps_indentation_witness :
  textarea (fst (handleKeyDown (mkPlatform false false) (mkProps true 2 false)
                   (key_of "Enter" false) 1
                   (onMount 0 (create (mkRec (lit "  foo") 5 5)))))
  = mkRec (lit "  foo" ++ newline :: lit "  ") 8 8.
Proof.
  destruct (enter_keeps_indentation (mkPlatform false false) (mkProps true 2 false)
              (key_of "Enter" false) 1 (onMount 0 (create (mkRec (lit "  foo") 5 5)))
              (lit "  foo") 5) as (_ & Hrun & _).
  - reflexivity.
  - reflexivity.
  - unfold len. simpl. lia.
  - rewrite Hrun by discriminate. reflexivity.
Defined.

(** X17: one of the six pair keys on a non-empty selection puts the key
    before the selected text and its closing character behind it, leaves
    the selection start where it is, moves the selection end by two, so
    that the selection covers the pair and the text, and suppresses the
    default action. *)
Theorem wrap_selection_by_pair_key (platform : Platform) (props : Props) (e : KeyboardEvent)
    (now : Z) (ed : Editor) (v : jsstring) (s s' : Z) :
  is_pair_key (key e) = true ->
  textarea ed = mkRec v s s' ->
  0 <= s < s' -> s' <= len v ->
  exists close,
    PAIRS (key e) = Some (key e, close)
    /\ let selected := take (Z.to_nat (s' - s)) (drop (Z.to_nat s) v) in
       let record := mkRec (take (Z.to_nat s) v ++ key e ++ selected ++ close
                              ++ drop (Z.to_nat s') v) s (s' + 2) in
       handleKeyDown platform props e now ed
       = (applyEdits record now (dispatch (KeyDown e) ed), true)
       /\ substring (value record) s (s' + 2) = key e ++ selected ++ close.
Proof.
  intros Hkey Hta Hs Hs'. destruct e as [k c m sh al]. cbn [key] in *.
  assert (forall close, PAIRS k = Some (k, close) ->
            str_eqb k (lit "Escape") = false -> str_eqb k (lit "Tab") = false ->
            str_eqb k (lit "Backspace") = false -> str_eqb k (lit "Enter") = false ->
            handleKeyDown platform props (mkKey k c m sh al) now ed
            = (applyEdits (mkRec (take (Z.to_nat s) v ++ k
                                    ++ take (Z.to_nat (s' - s)) (drop (Z.to_nat s) v)
                                    ++ close ++ drop (Z.to_nat s') v) s (s' + 2))
                          now (dispatch (KeyDown (mkKey k c m sh al)) ed), true))
    as Hrun.
  { intros close Hp E1 E2 E3 E4. unfold handleKeyDown. cbn [key].
    rewrite E1, E2, E3, E4, Hkey, Hp. cbn [andb textarea dispatch].
    rewrite Hta. cbn [selectionStart selectionEnd].
    destruct (Z.eqb_spec s s') as [|_]; [lia|]. cbn [negb].
    unfold wrap_selection. cbn [value selectionStart selectionEnd fst snd].
    by rewrite substring_prefix, substring_from_suffix, substring_middle by lia. }
  assert (forall close : jsstring, length k = 1%nat -> length close = 1%nat ->
            substring (take (Z.to_nat s) v ++ k
                         ++ take (Z.to_nat (s' - s)) (drop (Z.to_nat s) v)
                         ++ close ++ drop (Z.to_nat s') v) s (s' + 2)
            = k ++ take (Z.to_nat (s' - s)) (drop (Z.to_nat s) v) ++ close) as Hsub.
  { intros close Hk Hc. unfold len in *.
    set (sel := take (Z.to_nat (s' - s)) (drop (Z.to_nat s) v)).
    assert (length sel = Z.to_nat (s' - s)) as Hsel
      by (unfold sel; rewrite length_take, length_drop; lia).
    assert (length (take (Z.to_nat s) v) = Z.to_nat s) as Hpre
      by (rewrite length_take; lia).
    rewrite substring_middle; unfold len; rewrite ?length_app, ?length_drop; try lia.
    rewrite drop_app_length' by lia.
    replace (Z.to_nat (s' + 2 - s)) with (length (k ++ sel ++ close))
      by (rewrite !length_app; lia).
    by rewrite !app_assoc, take_app_length. }
  unfold is_pair_key in Hkey. cbn [existsb] in Hkey.
  repeat (apply orb_prop in Hkey as [Hkey|Hkey]); try discriminate;
    apply str_eqb_eq in Hkey; subst k;
    eexists; (split; [reflexivity|]); cbv zeta;
    (split; [by rewrite (Hrun _ eq_refl) by reflexivity|]);
    cbn [value]; by rewrite Hsub.
Qed.

Lemma wrap_selection_by_pair_key_witness :
  textarea (fst (handleKeyDown (mkPlatform false false) (mkProps true 2 false)
                   (key_of "(" false) 1 (onMount 0 (create (mkRec (lit "hello") 0 5)))))
  = mkRec (lit "(hello)") 0 7.
Proof.
  destruct (wrap_selection_by_pair_key (mkPlatform false false) (mkProps true 2 false)
              (key_of "(" false) 1 (onMount 0 (create (mkRec (lit "hello") 0 5)))
              (lit "hello") 0 5) as (close & Hp & Hrun & _).
  - reflexivity.
  - reflexivity.
  - lia.
  - unfold len. simpl. lia.
  - rewrite Hrun. injection Hp as <-. reflexivity.
Defined.

(** ** Indenting and unindenting *)

Lemma join_lines_snoc_cons (P : list jsstring) (x y : jsstring) (Q : list jsstring) :
  join_lines (P ++ [x]) ++ join_lines (y :: Q) = join_lines (P ++ (x ++ y) :: Q).
Proof.
  induction P as [|p P IH].
  - simpl. destruct Q; [done|]. by rewrite <- app_assoc.
  - change ((p :: P) ++ [x]) with (p :: (P ++ [x])).
    change ((p :: P) ++ (x ++ y) :: Q) with (p :: (P ++ (x ++ y) :: Q)).
    destruct (P ++ [x]) as [|z zs] eqn:E1; [by destruct P|].
    destruct (P ++ (x ++ y) :: Q) as [|w ws] eqn:E2; [by destruct P|].
    change (join_lines (p :: z :: zs)) with (p ++ newline :: join_lines (z :: zs)).
    change (join_lines (p :: w :: ws)) with (p ++ newline :: join_lines (w :: ws)).
    rewrite <- IH. by rewrite <- app_assoc.
Qed.

Lemma mapi_from_app {A B} (f : A -> Z -> B) (i : Z) (l k : list A) :
  mapi_from f i (l ++ k) = mapi_from f i l ++ mapi_from f (i + Z.of_nat (length l)) k.
Proof.
  revert i. induction l as [|x l IH]; intros i; simpl.
  - by rewrite Z.add_0_r.
  - rewrite IH. do 3 f_equal. lia.
Qed.

Lemma mapi_from_length {A B} (f : A -> Z -> B) (i : Z) (l : list A) :
  length (mapi_from f i l) = length l.
Proof. revert i. induction l as [|x l IH]; intros i; simpl; [done|]. by rewrite IH. Qed.

Lemma mapi_from_below (T : jsstring) (a b i : Z) (l : list jsstring) :
  i + Z.of_nat (length l) <= a ->
  mapi_from (fun line j => if (j >=? a) && (j <=? b) then T ++ line else line) i l = l.
Proof.
  revert i. induction l as [|x l IH]; intros i Hi; [done|]. simpl in *.
  destruct (Z.geb_spec i a); [lia|]. simpl. rewrite IH by lia. done.
Qed.

Lemma tabCharacter_free (props : Props) : ~ In newline (tabCharacter props).
Proof.
  unfold tabCharacter, repeat_char. induction (tabSize props) as [|n IH]; [by intros []|].
  simpl. intros [H|H]; [|done]. by destruct (insertSpaces props).
Qed.

Lemma nl_free_app (l k : jsstring) : ~ In newline l -> ~ In newline k -> ~ In newline (l ++ k).
Proof. intros Hl Hk [H|H]%in_app_or; auto. Qed.

Lemma nl_free_indented (T : jsstring) (a b i : Z) (l : list jsstring) :
  ~ In newline T -> nl_free l ->
  nl_free (mapi_from (fun line j => if (j >=? a) && (j <=? b) then T ++ line else line) i l).
Proof.
  intros HT Hl. revert i. induction Hl as [|x l Hx Hl IH]; intros i; simpl; constructor.
  - destruct (_ && _); [by apply nl_free_app|done].
  - apply IH.
Qed.

Lemma unindent_indented (T : jsstring) (a b i : Z) (l : list jsstring) :
  mapi_from (fun line j =>
               if (j >=? a) && (j <=? b) && startsWith line T
               then substring_from line (len T) else line) i
    (mapi_from (fun line j => if (j >=? a) && (j <=? b) then T ++ line else line) i l) = l.
Proof.
  revert i. induction l as [|x l IH]; intros i; [done|]. simpl. rewrite IH.
  destruct ((i >=? a) && (i <=? b)); simpl; [|done].
  rewrite startsWith_app. f_equal.
  rewrite substring_from_suffix by (rewrite len_app; pose proof (len_nonneg x); pose proof (len_nonneg T); lia).
  unfold len. rewrite Nat2Z.id. by rewrite drop_app_length.
Qed.

Lemma split_join_lines (lines : list jsstring) :
  lines <> [] -> nl_free lines -> split_lines (join_lines lines) = lines.
Proof.
  intros Hne Hfree. induction Hfree as [|l lines Hl Hfree IH]; [done|].
  destruct lines as [|l' lines].
  - simpl. by apply split_lines_no_newline.
  - change (join_lines (l :: l' :: lines)) with (l ++ newline :: join_lines (l' :: lines)).
    rewrite split_lines_app_newline by done. f_equal. by apply IH.
Qed.

(** A position of a text cuts one line [x ++ y] of it in two: the lines
    before the position are [P ++ [x]]. *)
Lemma position_lines (v : jsstring) (s : Z) :
  0 <= s <= len v ->
  exists P x y Q,
    getLines v s = P ++ [x]
    /\ split_lines v = P ++ (x ++ y) :: Q
    /\ len (join_lines (P ++ [x])) = s.
Proof.
  intros Hs. unfold getLines. rewrite substring_prefix by done.
  pose proof (split_lines_nonempty (take (Z.to_nat s) v)) as Hne.
  destruct (exists_last Hne) as (P & x & HP).
  destruct (split_lines (drop (Z.to_nat s) v)) as [|y Q] eqn:HQ;
    [by apply split_lines_nonempty in HQ|].
  pose proof (split_lines_free (take (Z.to_nat s) v)) as HfP. rewrite HP in HfP.
  pose proof (split_lines_free (drop (Z.to_nat s) v)) as HfQ. rewrite HQ in HfQ.
  pose proof (join_split_lines (take (Z.to_nat s) v)) as HjP. rewrite HP in HjP.
  pose proof (join_split_lines (drop (Z.to_nat s) v)) as HjQ. rewrite HQ in HjQ.
  exists P, x, y, Q. split; [done|]. split.
  - rewrite <- (take_drop (Z.to_nat s) v) at 1. rewrite <- HjP, <- HjQ.
    rewrite join_lines_snoc_cons. apply split_join_lines; [by destruct P|].
    apply Forall_app in HfP as [HfP Hx]. inversion Hx; subst.
    inversion HfQ; subst. apply Forall_app. split; [done|].
    constructor; [by apply nl_free_app|done].
  - rewrite HjP. unfold len in *. rewrite length_take. lia.
Qed.

(** The lines before the position that ends [P ++ [z1]] in the text
    whose lines are [P ++ (z1 ++ z2) :: Q]. *)
Lemma getLines_prefix (P : list jsstring) (z1 z2 : jsstring) (Q : list jsstring) :
  nl_free (P ++ [z1]) ->
  getLines (join_lines (P ++ (z1 ++ z2) :: Q)) (len (join_lines (P ++ [z1]))) = P ++ [z1].
Proof.
  intros Hfree. unfold getLines. rewrite <- join_lines_snoc_cons.
  rewrite substring_prefix by (rewrite len_app; pose proof (len_nonneg (join_lines (z2 :: Q)));
                               pose proof (len_nonneg (join_lines (P ++ [z1]))); lia).
  unfold len. rewrite Nat2Z.id, take_app_length.
  apply split_join_lines; [by destruct P|done].
Qed.

Lemma len_join_cons_snoc (p : jsstring) (P : list jsstring) (z : jsstring) :
  len (join_lines (p :: P ++ [z])) = len p + 1 + len (join_lines (P ++ [z])).
Proof. rewrite len_join_cons. destruct (P ++ [z]) eqn:E; [by destruct P|]. lia. Qed.

Lemma len_join_snoc (P : list jsstring) (z : jsstring) :
  len (join_lines (P ++ [z])) = len (join_lines (P ++ [[]])) + len z.
Proof.
  induction P as [|p P IH]; [simpl; change (len []) with 0; lia|].
  change ((p :: P) ++ [z]) with (p :: P ++ [z]).
  change ((p :: P) ++ [[]]) with (p :: P ++ [[]]).
  rewrite !len_join_cons_snoc. lia.
Qed.

Lemma line_at_last (P : list jsstring) (x : jsstring) :
  line_at (P ++ [x]) (Z.of_nat (length (P ++ [x])) - 1) = x /\ pop (P ++ [x]) = x.
Proof.
  split.
  - unfold line_at. rewrite length_app. simpl.
    replace (Z.of_nat (length P + 1) - 1) with (Z.of_nat (length P)) by lia.
    by rewrite at_index_last.
  - unfold pop. apply last_last.
Qed.

Lemma in_take (c : ascii) (n : nat) (l : jsstring) : In c (take n l) -> In c l.
Proof.
  revert n. induction l as [|d l IH]; intros [|n]; simpl; try done.
  intros [->|Hin]; [by left|right; by eapply IH].
Qed.

Lemma not_in_take (n : nat) (l : jsstring) : ~ In newline l -> ~ In newline (take n l).
Proof. intros Hl Hin. by apply Hl, (in_take _ n). Qed.

Lemma str_eqb_len (a b : jsstring) : len a <> len b -> str_eqb a b = false.
Proof.
  intros Hne. destruct (str_eqb a b) eqn:E; [|done].
  apply str_eqb_eq in E. by subst.
Qed.

(** X19: with a tab character of at least one character, indenting a
    record that satisfies the record invariant and unindenting the result
    gives back the value and the selection end. The selection start
    comes back too, unless the text before it on its line is white space
    only and at least as long as the tab character: then indenting leaves
    the start where it is and unindenting moves it left by the tab
    character. *)
Theorem indent_then_unindent (props : Props) (t : Rec) :
  (1 <= tabSize props)%nat ->
  rec_ok t ->
  let T := tabCharacter props in
  let x := pop (getLines (value t) (selectionStart t)) in
  unindent props (indent props t)
  = Some (mkRec (value t)
                (if negb (test_non_space x) && (len T <=? len x)
                 then selectionStart t - len T else selectionStart t)
                (selectionEnd t)).
Proof.
  intros Htab [Hs He] T x0. destruct t as [v s e].
  cbn [value selectionStart selectionEnd] in *.
  assert (1 <= len T) as HT.
  { unfold T, tabCharacter, repeat_char, len. rewrite length_replicate. lia. }
  pose proof (tabCharacter_free props) as HTfree. fold T in HTfree.
  destruct (getLines_order v s e Hs He) as [[H1 Hse] Hev].
  destruct (position_lines v s ltac:(lia)) as (P & x & y & Q & Gs & Ls & Hps).
  destruct (position_lines v e ltac:(lia)) as (P2 & x2 & y2 & Q2 & Ge & Le & Hpe).
  assert (x0 = x) as -> by (unfold x0; rewrite Gs; apply line_at_last).
  set (a := Z.of_nat (length P)). set (b := Z.of_nat (length P2)).
  assert (a <= b) as Hab.
  { rewrite Gs, Ge, !length_app in Hse. simpl in Hse. unfold a, b. lia. }
  set (F := fun (line : jsstring) (j : Z) => if (j >=? a) && (j <=? b) then T ++ line else line).
  set (L' := mapi_from F 0 (split_lines v)).
  pose proof (split_lines_free v) as HLfree.
  assert (nl_free L') as HL'free by (by apply nl_free_indented).
  assert (L' <> []) as HL'ne.
  { intros E. apply (f_equal length) in E. unfold L' in E.
    rewrite mapi_from_length, Ls, length_app in E. simpl in E. lia. }
  (* the record of the indent branch *)
  assert (indent props (mkRec v s e)
          = mkRec (join_lines L') (if test_non_space x then s + len T else s)
                  (e + len T * (b - a + 1))) as Hind.
  { unfold indent, mapi. cbn [value selectionStart selectionEnd]. fold T.
    rewrite Gs, Ge. rewrite (proj1 (line_at_last P x)).
    rewrite !length_app. simpl length.
    replace (Z.of_nat (length P + 1) - 1) with a by (unfold a; lia).
    replace (Z.of_nat (length P2 + 1) - 1) with b by (unfold b; lia). done. }
  rewrite Hind. clear Hind.
  (* the lines of the indented text around the two positions *)
  assert (L' = P ++ (T ++ x ++ y) :: mapi_from F (a + 1) Q) as HLs.
  { unfold L'. rewrite Ls, mapi_from_app. cbn [mapi_from]. fold a.
    rewrite Z.add_0_l. unfold F at 1. rewrite mapi_from_below by (fold a; lia).
    unfold F at 1. destruct (Z.geb_spec a a); [|lia]. destruct (Z.leb_spec a b); [|lia].
    done. }
  assert (L' = mapi_from F 0 P2 ++ (T ++ x2 ++ y2) :: mapi_from F (b + 1) Q2) as HLe.
  { unfold L'. rewrite Le, mapi_from_app. cbn [mapi_from]. fold b.
    rewrite Z.add_0_l. unfold F at 2.
    destruct (Z.geb_spec b a); [|lia]. destruct (Z.leb_spec b b); [|lia]. done. }
  assert (len (join_lines L') = len v + len T * (b - a + 1)) as Hlen'.
  { unfold L', F. rewrite len_join_indented, join_split_lines, indented_lines_closed.
    rewrite Le, length_app. simpl length. fold b.
    pose proof (len_nonneg T). f_equal. f_equal. unfold b. lia. }
  assert (len (join_lines (mapi_from F 0 P2 ++ [T ++ x2])) = e + len T * (b - a + 1)) as Hpe'.
  { replace (mapi_from F 0 P2 ++ [T ++ x2]) with (mapi_from F 0 (P2 ++ [x2])).
    - unfold F. rewrite len_join_indented, Hpe, indented_lines_closed, length_app.
      simpl length. f_equal. f_equal. unfold b. lia.
    - rewrite mapi_from_app. cbn [mapi_from]. fold b. rewrite Z.add_0_l. unfold F at 2.
      destruct (Z.geb_spec b a); [|lia]. destruct (Z.leb_spec b b); [|lia]. done. }
  assert (nl_free (P ++ [x]) /\ nl_free (P2 ++ [x2])) as [HfP HfP2].
  { rewrite <- Gs, <- Ge. unfold getLines. split; apply split_lines_free. }
  assert (getLines (join_lines L') (e + len T * (b - a + 1))
          = mapi_from F 0 P2 ++ [T ++ x2]) as Ge'.
  { rewrite <- Hpe', HLe.
    change (T ++ x2 ++ y2) with (T ++ (x2 ++ y2)). rewrite (app_assoc T x2 y2).
    apply getLines_prefix.
    replace (mapi_from F 0 P2 ++ [T ++ x2]) with (mapi_from F 0 (P2 ++ [x2])).
    - by apply nl_free_indented.
    - rewrite mapi_from_app. cbn [mapi_from]. fold b. rewrite Z.add_0_l. unfold F at 2.
      destruct (Z.geb_spec b a); [|lia]. destruct (Z.leb_spec b b); [|lia]. done. }
  (* the start position, moved or not *)
  set (s' := if test_non_space x then s + len T else s).
  set (z1 := if test_non_space x then T ++ x else take (length x) (T ++ x ++ y)).
  assert (getLines (join_lines L') s' = P ++ [z1]
          /\ startsWith z1 T = test_non_space x || (len T <=? len x)) as [Gs' Hz1].
  { apply Forall_app in HfP as [HfP Hx'%Forall_inv].
    unfold s', z1. destruct (test_non_space x) eqn:Ex.
    - split; [|by rewrite startsWith_app].
      replace (s + len T) with (len (join_lines (P ++ [T ++ x])))
        by (rewrite len_join_snoc, len_app, <- Hps, (len_join_snoc P x); lia).
      rewrite HLs. rewrite (app_assoc T x y). apply getLines_prefix.
      apply Forall_app. split; [done|]. constructor; [by apply nl_free_app|constructor].
    - assert (length (take (length x) (T ++ x ++ y)) = length x) as Hlz
        by (rewrite length_take, !length_app; lia).
      split.
      + replace s with (len (join_lines (P ++ [take (length x) (T ++ x ++ y)])))
          by (rewrite len_join_snoc, <- Hps, (len_join_snoc P x); unfold len; lia).
        rewrite HLs. rewrite <- (take_drop (length x) (T ++ x ++ y)) at 1.
        apply getLines_prefix. apply Forall_app. split; [done|].
        constructor; [|constructor]. apply not_in_take.
        rewrite Ls in HLfree. apply Forall_app in HLfree as [_ Hxy%Forall_inv].
        by apply nl_free_app.
      + simpl. destruct (Z.leb_spec (len T) (len x)) as [Hle|Hgt].
        * rewrite take_app_ge by (unfold len in *; lia). apply startsWith_app.
        * destruct (startsWith _ T) eqn:Esw; [|done].
          apply startsWith_length in Esw. unfold len in *. lia. }
  (* the unindent branch on the indented record *)
  unfold unindent, mapi. cbn [value selectionStart selectionEnd]. fold T.
  rewrite Gs', Ge'. rewrite (proj1 (line_at_last P z1)).
  rewrite !length_app, mapi_from_length. simpl length.
  replace (Z.of_nat (length P + 1) - 1) with a by (unfold a; lia).
  replace (Z.of_nat (length P2 + 1) - 1) with b by (unfold b; lia).
  rewrite (split_join_lines L') by done.
  assert (mapi_from (fun line i =>
                       if (i >=? a) && (i <=? b) && startsWith line T
                       then substring_from line (len T) else line) 0 L'
          = split_lines v) as -> by (unfold L', F; apply unindent_indented).
  rewrite join_split_lines.
  rewrite str_eqb_len by (rewrite Hlen'; nia). cbn [negb].
  rewrite Hlen', Hz1. do 2 f_equal.
  - unfold s'. destruct (test_non_space x); simpl; [lia|].
    by destruct (len T <=? len x).
  - ring.
Qed.

Lemma indent_then_unindent_witness :
  let props := mkProps true 2 false in
  unindent props (indent props (mkRec (lit "    ab" ++ newline :: lit "cd") 2 9))
  = Some (mkRec (lit "    ab" ++ newline :: lit "cd") 0 9)
  /\ unindent props (indent props (mkRec (lit "    ab" ++ newline :: lit "cd") 5 9))
     = Some (mkRec (lit "    ab" ++ newline :: lit "cd") 5 9).
Proof.
  intros props. split.
  - rewrite (indent_then_unindent props (mkRec (lit "    ab" ++ newline :: lit "cd") 2 9)).
    + reflexivity.
    + simpl. lia.
    + unfold rec_ok, len. simpl. lia.
  - rewrite (indent_then_unindent props (mkRec (lit "    ab" ++ newline :: lit "cd") 5 9)).
    + reflexivity.
    + simpl. lia.
    + unfold rec_ok, len. simpl. lia.
Defined.

(** ** Undo, redo and the capture toggle from the keyboard *)

(** The undo and redo combinations never hold together, and each needs
    the key [z] or [y]. *)
Lemma undo_redo_exclusive_aux (platform : Platform) (e : KeyboardEvent) :
  is_undo platform e && is_redo platform e = false
  /\ (is_undo platform e = true \/ is_redo platform e = true ->
      key e = lit "z" \/ key e = lit "y").
Proof.
  unfold is_undo, is_redo. split.
  - destruct (isMacLike platform), (isWindows platform), (ctrlKey e), (metaKey e),
      (shiftKey e), (altKey e); cbn [andb negb]; rewrite ?andb_false_r; try reflexivity;
      destruct (str_eqb (key e) (lit "z")) eqn:Ez; try reflexivity;
      apply str_eqb_eq in Ez; rewrite Ez; reflexivity.
  - destruct (str_eqb (key e) (lit "z")) eqn:Ez; [left; by apply str_eqb_eq|].
    destruct (str_eqb (key e) (lit "y")) eqn:Ey; [right; by apply str_eqb_eq|].
    rewrite !andb_false_r. cbn [andb].
    destruct (isMacLike platform), (isWindows platform); cbn [andb];
      intros [H|H]; discriminate.
Qed.

(** X22: a key event that is the platform's undo combination runs
    [undoEdit], and one that is its redo combination runs [redoEdit];
    both suppress the default action. *)
Theorem undo_redo_keys (platform : Platform) (props : Props) (e : KeyboardEvent) (now : Z)
    (ed : Editor) :
  (is_undo platform e = true ->
   handleKeyDown platform props e now ed = (undoEdit (dispatch (KeyDown e) ed), true))
  /\ (is_redo platform e = true ->
      handleKeyDown platform props e now ed = (redoEdit (dispatch (KeyDown e) ed), true)).
Proof.
  destruct (undo_redo_exclusive_aux platform e) as [Hex Hkey].
  split; intros Hon.
  - destruct (Hkey (or_introl Hon)) as [Hk|Hk]; unfold handleKeyDown; rewrite Hon;
      rewrite Hk; reflexivity.
  - assert (is_undo platform e = false) as Hoff
      by (destruct (is_undo platform e); [by rewrite Hon in Hex|done]).
    destruct (Hkey (or_intror Hon)) as [Hk|Hk]; unfold handleKeyDown; rewrite Hon, Hoff;
      rewrite Hk; reflexivity.
Qed.

Lemma undo_redo_keys_witness :
  let ed := applyEdits (mkRec (lit "ab") 2 2) 1 (onMount 0 (create (mkRec (lit "a") 1 1))) in
  textarea (fst (handleKeyDown (mkPlatform false false) (mkProps true 2 false)
                   (mkKey (lit "z") true false false false) 2 ed))
  = mkRec (lit "a") 1 1.
Proof.
  intros ed.
  rewrite (proj1 (undo_redo_keys (mkPlatform false false) (mkProps true 2 false)
                    (mkKey (lit "z") true false false false) 2 ed)); reflexivity.
Defined.




Lemma EditorSvelte_pair_key_at_caret_witness :
  let ed := onMount 0 (create (mkRec (lit "x") 1 1)) in
  EditorSvelte.handleKeyDown (mkPlatform false false) (mkProps true 2 false)
    (key_of "(" false) 1 ed
  = (dispatch (KeyDown (key_of "(" false)) ed, false).
Proof.
  intros ed.
  apply (EditorSvelte_pair_key_at_caret (mkPlatform false false) (mkProps true 2 false)
           (key_of "(" false) 1 ed); reflexivity.
Defined.
